(** * PageRank (pagerank.py): a shallow embedding and its verified properties

    The development follows [pagerank.py] function by function:
    [crawl], [transition_model], [sample_pagerank], [iterate_pagerank] and
    [main].

    Modelling choices.
    - A page is a [string] (a file name).
    - A Python [dict] is an association list in insertion order, with
      [dict_set] overwriting in place or appending: the code relies on the
      order ([list(corpus.keys())] is zipped with [list(prediction.values())]).
    - A Python [set] of pages is a [gset string]; the code only uses [len],
      [in], set difference and filtering on sets.
    - Python numbers are exact rationals [Q]: [/] is true division and
      [0.85], [0.001] stand for 85/100 and 1/1000.  Rounding of IEEE doubles
      is not modelled.
    - Exceptions are values of [exn]; code that may raise lives in [result].
    - The [while] loop of [iterate_pagerank] is bounded by a fuel argument;
      running out of fuel is [None].
    - The [random] module, the regular-expression search and the file system
      are parameters: [sample_pagerank] threads a generator state through two
      draw functions, and [crawl] takes the directory as the list of its
      entries with the text read from each.
    - [main] returns how the run ends together with the lines it printed;
      [main_run] is [main] with the reads of [crawl] allowed to fail;
      the rendering of a number with four decimals is a parameter, and
      [sorted] is a merge sort by the lexicographic order of [String.leb]. *)

From Stdlib Require Import QArith Qabs.
From stdpp Require Import gmap strings list sorting.

(** ** Exceptions and the error monad *)

Inductive exn : Set := TypeError | KeyError | IndexError | ValueError.

Inductive result (A : Type) : Type :=
| Ok (a : A)
| Raise (e : exn).
Arguments Ok {A} a.
Arguments Raise {A} e.

#[global] Instance result_ret : MRet result := fun A a => Ok a.
#[global] Instance result_bind : MBind result := fun A B f m =>
  match m with
  | Ok a => f a
  | Raise e => Raise e
  end.

(** [for x in l: s = body x s], stopping at the first exception. *)
Fixpoint for_each {A S : Type} (l : list A) (body : A -> S -> result S) (s : S)
  : result S :=
  match l with
  | [] => Ok s
  | x :: l' => s' ← body x s; for_each l' body s'
  end.

(** ** Python dictionaries *)

Abbreviation dict V := (list (string * V)).

Definition keys {V : Type} (d : dict V) : list string := d.*1.
Definition values {V : Type} (d : dict V) : list V := d.*2.

(** [d.get(k)] *)
Fixpoint dict_get {V : Type} (k : string) (d : dict V) : option V :=
  match d with
  | [] => None
  | (k', v) :: d' => if decide (k' = k) then Some v else dict_get k d'
  end.

(** [d[k]], raising [KeyError] on a missing key *)
Definition dict_getitem {V : Type} (k : string) (d : dict V) : result V :=
  match dict_get k d with
  | Some v => Ok v
  | None => Raise KeyError
  end.

(** [d[k] = v] *)
Fixpoint dict_set {V : Type} (k : string) (v : V) (d : dict V) : dict V :=
  match d with
  | [] => [(k, v)]
  | (k', v') :: d' =>
      if decide (k' = k) then (k', v) :: d' else (k', v') :: dict_set k v d'
  end.

(** [for p in pages: d[p] = f(p)] *)
Definition fill {V : Type} (f : string → V) (d : dict V) (pages : list string) : dict V :=
  foldl (λ d p, dict_set p (f p) d) d pages.

(** A well-formed dictionary holds each key once. *)
Definition dict_wf {V : Type} (d : dict V) : Prop := NoDup (keys d).

(** ** Numbers *)

Definition Qnat (n : nat) : Q := inject_Z (Z.of_nat n).

(** [sum(l)] *)
Definition Qsum (l : list Q) : Q := foldl Qplus 0%Q l.

(** ** Graphs *)

Abbreviation graph := (list (string * gset string)).

(** Every link target is a page of the corpus. *)
Definition links_closed (corpus : graph) : Prop :=
  ∀ page links, (page, links) ∈ corpus → ∀ l, l ∈ links → l ∈ keys corpus.

(** No page links to itself. *)
Definition no_self_links (corpus : graph) : Prop :=
  ∀ page links, (page, links) ∈ corpus → page ∉ links.

Definition graph_invariant (corpus : graph) : Prop :=
  links_closed corpus ∧ no_self_links corpus.

(** ** transition_model *)

(** [x in s] where [s] may be [None] (a [TypeError] in Python). *)
Definition py_in (x : string) (s : option (gset string)) : result bool :=
  match s with
  | Some s => Ok (bool_decide (x ∈ s))
  | None => Raise TypeError
  end.

(** [len(s)] where [s] may be [None]. *)
Definition py_len (s : option (gset string)) : result nat :=
  match s with
  | Some s => Ok (size s)
  | None => Raise TypeError
  end.

(** The body of the loop over [corpus.items()]. *)
Definition transition_step (num_websites : nat) (page : string)
    (page_links : option (gset string)) (damping_factor : Q)
    (item : string * gset string) (results_dict : dict Q) : result (dict Q) :=
  let '(website, links) := item in
  if (size links =? 0)%nat then
    Ok (dict_set website (1 / Qnat num_websites)%Q results_dict)
  else
    skip ← (if String.eqb website page then Ok true
            else b ← py_in website page_links; Ok (negb b));
    if (skip : bool) then
      Ok (dict_set website ((1 - damping_factor) / Qnat num_websites)%Q results_dict)
    else
      len_links ← py_len page_links;
      Ok (dict_set website
            ((1 - damping_factor) / Qnat num_websites
             + damping_factor / Qnat len_links)%Q results_dict).

Definition transition_model (corpus : graph) (page : string) (damping_factor : Q)
  : result (dict Q) :=
  let results_dict := [] in
  let num_websites := length corpus in
  let page_links := dict_get page corpus in
  for_each corpus (transition_step num_websites page page_links damping_factor)
    results_dict.

(** What [transition_model] stores for one item of the corpus. *)
Definition transition_value (num_websites : nat) (page : string)
    (page_links : gset string) (damping_factor : Q)
    (item : string * gset string) : Q :=
  if (size item.2 =? 0)%nat then (1 / Qnat num_websites)%Q
  else if String.eqb item.1 page || negb (bool_decide (item.1 ∈ page_links)) then
    ((1 - damping_factor) / Qnat num_websites)%Q
  else
    ((1 - damping_factor) / Qnat num_websites
     + damping_factor / Qnat (size page_links))%Q.

(** Example graphs. *)
Definition graph_dangling : graph := [("A", {["B"]}); ("B", ∅)].
Definition graph_cycle : graph := [("A", {["B"]}); ("B", {["A"]})].

(** ** sample_pagerank *)

Definition DAMPING : Q := 85 # 100.
Definition SAMPLES : Z := 10000.

(** [Counter(samples)]: the visit count of each page, in order of first
    occurrence. *)
Definition Counter (samples : list string) : dict nat :=
  foldl (fun counts x => dict_set x (S (default 0%nat (dict_get x counts))) counts)
    [] samples.

(** State of the random walk: the current page, the samples drawn so far and
    the state of the generator. *)
Record walk (rng : Type) : Type := Walk {
  walk_page : string;
  walk_samples : list string;
  walk_rng : rng
}.
Arguments Walk {rng} _ _ _.
Arguments walk_page {rng} _.
Arguments walk_samples {rng} _.
Arguments walk_rng {rng} _.

Section sampling.
(** Python's [random] module is a parameter: a generator state and the two
    draws the code makes, each threading the state and possibly raising. *)
Context {rng : Type}.
Context (random_choice : list string → rng → result (string * rng)).
Context (random_choices : list string → list Q → rng → result (string * rng)).

(** The body of [for x in range(1, n)]. *)
Definition sample_step (corpus : graph) (damping_factor : Q)
    (websites : list string) (x : Z) (w : walk rng) : result (walk rng) :=
  prediction ← transition_model corpus (walk_page w) damping_factor;
  let probabilities := values prediction in
  drawn ← random_choices websites probabilities (walk_rng w);
  let page := drawn.1 in
  Ok (Walk page (walk_samples w ++ [page]) drawn.2).

(** The walk: everything up to [Counter(samples)]. *)
Definition sample_walk (corpus : graph) (damping_factor : Q) (n : Z) (g : rng)
  : result (walk rng) :=
  let samples := [] in
  let websites := keys corpus in
  first ← random_choice websites g;
  let page := first.1 in
  let samples := samples ++ [page] in
  for_each (seqZ 1 (n - 1)) (sample_step corpus damping_factor websites)
    (Walk page samples first.2).

Definition sample_pagerank (corpus : graph) (damping_factor : Q) (n : Z) (g : rng)
  : result (dict Q * rng) :=
  w ← sample_walk corpus damping_factor n g;
  let samples_count := Counter (walk_samples w) in
  let sample_PR_results :=
    foldl (fun res item => dict_set item.1 (Qnat item.2 / inject_Z SAMPLES)%Q res)
      [] samples_count in
  Ok (sample_PR_results, walk_rng w).
End sampling.

(** A stand-in generator to run the sampler on examples: its state is a
    counter and it draws the entries of the population in turn.  It raises
    where the library functions do (an empty population; weights of the wrong
    length or of total at most zero), but it ignores the weights otherwise. *)
Definition cyclic_choice (seq : list string) (g : nat) : result (string * nat) :=
  match seq !! (g mod length seq)%nat with
  | Some x => Ok (x, S g)
  | None => Raise IndexError
  end.

Definition cyclic_choices (population : list string) (weights : list Q) (g : nat)
  : result (string * nat) :=
  if negb (length weights =? length population)%nat then Raise ValueError
  else if Qle_bool (Qsum weights) 0 then Raise ValueError
  else cyclic_choice population g.

(** ** iterate_pagerank *)

(** The mutable locals of [iterate_pagerank]. *)
Record iter_state : Type := IterState {
  pagerank : dict Q;
  new_rank : dict Q;
  stop : bool
}.

(** The body of [for possible_page in corpus]. *)
Definition total_step (corpus : graph) (ranks : dict Q) (page : string)
    (possible_page : string) (total : Q) : result Q :=
  links ← dict_getitem possible_page corpus;
  total ← (if bool_decide (page ∈ links) then
             pr ← dict_getitem possible_page ranks;
             Ok (total + pr / Qnat (size links))%Q
           else Ok total);
  links ← dict_getitem possible_page corpus;
  if (size links =? 0)%nat then
    pr ← dict_getitem possible_page ranks;
    Ok (total + pr / Qnat (length corpus))%Q
  else Ok total.

(** The body of the first [for page in pagerank]: fills [new_rank]. *)
Definition compute_step (corpus : graph) (damping_factor : Q) (ranks : dict Q)
    (page : string) (new : dict Q) : result (dict Q) :=
  total ← for_each (keys corpus) (total_step corpus ranks page) 0%Q;
  Ok (dict_set page
        ((1 - damping_factor) / Qnat (length corpus) + damping_factor * total)%Q new).

(** The body of the second [for page in pagerank]: tests the change and
    overwrites [pagerank]. *)
Definition commit_step (page : string) (st : iter_state) : result iter_state :=
  old ← dict_getitem page (pagerank st);
  new ← dict_getitem page (new_rank st);
  let stop' :=
    if negb (Qle_bool (Qabs (old - new)) (1 # 1000)) then false else stop st in
  new ← dict_getitem page (new_rank st);
  Ok (IterState (dict_set page new (pagerank st)) (new_rank st) stop').

(** One pass through the body of the [while] loop. *)
Definition sweep (corpus : graph) (damping_factor : Q) (st : iter_state)
  : result iter_state :=
  let pages := keys (pagerank st) in
  new ← for_each pages (compute_step corpus damping_factor (pagerank st)) (new_rank st);
  for_each pages commit_step (IterState (pagerank st) new true).

(** [while stop == False: ...], at most [fuel] passes. *)
Fixpoint while_not_stop (fuel : nat) (corpus : graph) (damping_factor : Q)
    (st : iter_state) : option (result iter_state) :=
  if stop st then Some (Ok st)
  else
    match fuel with
    | O => None
    | S fuel' =>
        match sweep corpus damping_factor st with
        | Ok st' => while_not_stop fuel' corpus damping_factor st'
        | Raise e => Some (Raise e)
        end
    end.

(** The initial ranks: [pagerank[page] = 1 / len(corpus)] for each page. *)
Definition initial_ranks (corpus : graph) : dict Q :=
  foldl (fun ranks page => dict_set page (1 / Qnat (length corpus))%Q ranks)
    [] (keys corpus).

Definition iterate_pagerank (fuel : nat) (corpus : graph) (damping_factor : Q)
  : option (result (dict Q)) :=
  r ← while_not_stop fuel corpus damping_factor
        (IterState (initial_ranks corpus) [] false);
  Some (st ← r; Ok (pagerank st)).

(** *** The synchronous update, stated on its own

    The definitions below say what one pass of the loop is meant to compute,
    without the two mutable dictionaries: every new rank is a function of the
    ranks before the pass.  [sweep] and [iterate_pagerank] above are compared
    with them. *)

Definition rank_of (ranks : dict Q) (p : string) : Q := default 0%Q (dict_get p ranks).
Definition links_of (corpus : graph) (p : string) : gset string :=
  default ∅ (dict_get p corpus).

(** What [possible_page] adds to the total of [page]. *)
Definition contribution (corpus : graph) (ranks : dict Q) (page : string)
    (total : Q) (possible_page : string) : Q :=
  let links := links_of corpus possible_page in
  let total :=
    if bool_decide (page ∈ links)
    then (total + rank_of ranks possible_page / Qnat (size links))%Q else total in
  if (size links =? 0)%nat
  then (total + rank_of ranks possible_page / Qnat (length corpus))%Q else total.

Definition rank_total (corpus : graph) (ranks : dict Q) (page : string) : Q :=
  foldl (contribution corpus ranks page) 0%Q (keys corpus).

Definition rank_update (corpus : graph) (d : Q) (ranks : dict Q) (page : string) : Q :=
  ((1 - d) / Qnat (length corpus) + d * rank_total corpus ranks page)%Q.

(** The part of the rank of [possible_page] that goes to [page]. *)
Definition share (corpus : graph) (ranks : dict Q) (page possible_page : string) : Q :=
  let links := links_of corpus possible_page in
  ((if bool_decide (page ∈ links)
    then rank_of ranks possible_page / Qnat (size links) else 0)
   + (if (size links =? 0)%nat
      then rank_of ranks possible_page / Qnat (length corpus) else 0))%Q.

(** All ranks replaced at once. *)
Definition next_ranks (corpus : graph) (d : Q) (ranks : dict Q) : dict Q :=
  (λ it, (it.1, rank_update corpus d ranks it.1)) <$> ranks.

(** No page changes by more than 0.001 in the pass that starts from [ranks]. *)
Definition settled (corpus : graph) (d : Q) (ranks : dict Q) : bool :=
  forallb (λ p, Qle_bool (Qabs (rank_of ranks p - rank_update corpus d ranks p)) (1 # 1000))
    (keys ranks).

(** The ranks after [k] passes. *)
Definition ranks_after (corpus : graph) (d : Q) (k : nat) : dict Q :=
  Nat.iter k (next_ranks corpus d) (initial_ranks corpus).

(** Pass number [k] (counting from 0) is the first in which no page moves by
    more than the threshold. *)
Definition first_settled (corpus : graph) (d : Q) (k : nat) : Prop :=
  settled corpus d (ranks_after corpus d k) = true ∧
  ∀ j, (j < k)%nat → settled corpus d (ranks_after corpus d j) = false.

(** The fifth concrete scenario of the specification: on A -> B with B
    dangling and d = 0.85 the iteration returns ranks within 0.001 of
    one half for both pages. *)
Definition spec_dangling_pair_is_half : Prop :=
  ∃ fuel r, iterate_pagerank fuel graph_dangling DAMPING = Some (Ok r) ∧
    ∀ p v, dict_get p r = Some v → (Qabs (v - (1 # 2)) <= 1 # 1000)%Q.

(** The error-handling rule of the specification: an empty graph, or a
    current page that is not a key of the graph, makes the estimator at hand
    raise. *)
Definition spec_invalid_input_aborts : Prop :=
  (∀ corpus page d, corpus = [] ∨ page ∉ keys corpus →
     ∃ e, transition_model corpus page d = Raise e) ∧
  (∀ d, ∃ fuel e, iterate_pagerank fuel [] d = Some (Raise e)) ∧
  (∀ d n g, ∃ e, sample_pagerank cyclic_choice cyclic_choices [] d n g = Raise e).

(** ** crawl *)

(** [s.endswith(suffix)] *)
Definition endswith (s suffix : string) : bool :=
  let n := String.length s in
  let m := String.length suffix in
  (m <=? n)%nat && String.eqb (String.substring (n - m) m s) suffix.

Section crawling.
(** The regular-expression search for anchors is a parameter; a directory
    is the list of its entries, each with the text read from it. *)
Context (findall : string → list string).

(** The body of [for filename in os.listdir(directory)]. *)
Definition read_step (pages : graph) (entry : string * string) : graph :=
  let '(filename, contents) := entry in
  if negb (endswith filename ".html") then pages
  else
    let links := findall contents in
    dict_set filename (list_to_set links ∖ {[filename]}) pages.

(** The body of [for filename in pages]. *)
Definition restrict_step (filename : string) (pages : graph) : result graph :=
  links ← dict_getitem filename pages;
  Ok (dict_set filename (filter (λ link, link ∈ keys pages) links) pages).

Definition crawl (directory : list (string * string)) : result graph :=
  let pages := foldl read_step [] directory in
  for_each (keys pages) restrict_step pages.
End crawling.

(** The third testable property of the transition model, as the specification
    words it: for a non-dangling [page] with [L] links, a page outside the
    outbound set of [page] gets [(1-d)/N] and a page inside gets
    [(1-d)/N + d/L]. *)
Definition spec_nondangling_values (corpus : graph) (page : string) (d : Q) : Prop :=
  ∀ page_links, dict_get page corpus = Some page_links → size page_links ≠ 0%nat →
  ∃ r, transition_model corpus page d = Ok r ∧
    ∀ w, w ∈ keys corpus →
      ∃ v, dict_get w r = Some v ∧
        (w ∉ page_links → v == (1 - d) / Qnat (length corpus))%Q ∧
        (w ∈ page_links →
           v == (1 - d) / Qnat (length corpus) + d / Qnat (size page_links))%Q.


(** ** main *)

(** [sorted(d)]: the keys in ascending order of [String.leb], the
    lexicographic order on the characters. *)
Definition string_le (a b : string) : Prop := String.leb a b = true.

#[global] Instance string_le_dec : RelDecision string_le :=
  λ a b, decide (String.leb a b = true).

Definition sorted (l : list string) : list string := merge_sort string_le l.

(** How a run of [main] ends: [sys.exit] with a message, an exception that
    nobody catches, or a normal return; [stdout] holds the lines printed up
    to that point. *)
Inductive main_outcome : Type :=
| SystemExit (message : string)
| Uncaught (e : exn) (stdout : list string)
| Returned (stdout : list string).

Section main_program.
(** Besides the generator and the search for links, the file system (the
    entries of a directory with their text) and the rendering of a number
    with four decimals are parameters. *)
Context {rng : Type}.
Context (random_choice : list string → rng → result (string * rng)).
Context (random_choices : list string → list Q → rng → result (string * rng)).
Context (findall : string → list string).
Context (listdir : string → list (string * string)).
Context (format_4f : Q → string).

(** The line printed for one page. *)
Definition report_line (page : string) (v : Q) : string :=
  "  " +:+ page +:+ ": " +:+ format_4f v.

(** [for page in pages: print(...)], keeping what was printed when a lookup
    raises. *)
Fixpoint print_ranks (ranks : dict Q) (pages : list string) (stdout : list string)
  : option exn * list string :=
  match pages with
  | [] => (None, stdout)
  | page :: pages' =>
      match dict_getitem page ranks with
      | Ok v => print_ranks ranks pages' (stdout ++ [report_line page v])
      | Raise e => (Some e, stdout)
      end
  end.

Definition main (fuel : nat) (argv : list string) (g : rng) : option main_outcome :=
  if negb (length argv =? 2)%nat then
    Some (SystemExit "Usage: python pagerank.py corpus")
  else
    match crawl findall (listdir (default "" (argv !! 1%nat))) with
    | Raise e => Some (Uncaught e [])
    | Ok corpus =>
        match sample_pagerank random_choice random_choices corpus DAMPING SAMPLES g with
        | Raise e => Some (Uncaught e [])
        | Ok (ranks, _) =>
            let stdout := ["PageRank Results from Sampling (n = 10000)"] in
            match print_ranks ranks (sorted (keys ranks)) stdout with
            | (Some e, stdout) => Some (Uncaught e stdout)
            | (None, stdout) =>
                match iterate_pagerank fuel corpus DAMPING with
                | None => None
                | Some (Raise e) => Some (Uncaught e stdout)
                | Some (Ok ranks) =>
                    let stdout := stdout ++ ["PageRank Results from Iteration"] in
                    match print_ranks ranks (sorted (keys ranks)) stdout with
                    | (Some e, stdout) => Some (Uncaught e stdout)
                    | (None, stdout) => Some (Returned stdout)
                    end
                end
            end
        end
    end.
End main_program.


Section main_reading.
Context {rng : Type}.
Context (random_choice : list string → rng → result (string * rng)).
Context (random_choices : list string → list Q → rng → result (string * rng)).
Context (findall : string → list string).
Context (read_directory : string → option (list (string * string))).
Context (format_4f : Q → string).

End main_reading.


Definition example_listdir (directory : string) : list (string * string) :=
  if String.eqb directory "corpus"
  then [("1.html", "2.html"); ("notes.txt", "1.html"); ("2.html", "1.html")]
  else [].


(** ** Dictionary lemmas *)

Section dict_lemmas.
Context {V : Type}.
Implicit Types (d : dict V) (k : string) (v : V).

Lemma dict_set_fresh k v d : k ∉ keys d → dict_set k v d = d ++ [(k, v)].
Proof.
  induction d as [|[k' v'] d IH]; simpl; [done|].
  intros Hk. apply not_elem_of_cons in Hk as [Hne Hk].
  case_decide; [congruence|]. by rewrite IH.
Qed.

Lemma keys_dict_set_fresh k v d : k ∉ keys d → keys (dict_set k v d) = keys d ++ [k].
Proof. intros Hk. rewrite dict_set_fresh by done. unfold keys. by rewrite fmap_app. Qed.

Lemma keys_dict_set_mem k v d : k ∈ keys d → keys (dict_set k v d) = keys d.
Proof.
  induction d as [|[k' v'] d IH]; simpl; [by intros ?%elem_of_nil|].
  intros Hk. case_decide; [done|].
  apply elem_of_cons in Hk as [->|Hk]; [done|]. simpl. f_equal. by apply IH.
Qed.

Lemma dict_get_set_eq k v d : dict_get k (dict_set k v d) = Some v.
Proof.
  induction d as [|[k' v'] d IH]; simpl.
  - by rewrite decide_True.
  - case_decide as Hk; simpl.
    + by rewrite decide_True.
    + by rewrite decide_False.
Qed.

Lemma dict_get_set_ne k k' v d : k ≠ k' → dict_get k' (dict_set k v d) = dict_get k' d.
Proof.
  intros Hne. induction d as [|[k0 v0] d IH]; simpl.
  - by rewrite decide_False.
  - case_decide as Hk; simpl.
    + subst k0. by rewrite !decide_False.
    + by rewrite IH.
Qed.

Lemma dict_get_Some_elem k v d : dict_get k d = Some v → (k, v) ∈ d.
Proof.
  induction d as [|[k' v'] d IH]; simpl; [done|].
  case_decide; [intros [= ->]; subst; left|right; auto].
Qed.

Lemma dict_get_elem k v d : dict_wf d → (k, v) ∈ d → dict_get k d = Some v.
Proof.
  unfold dict_wf, keys. induction d as [|[k' v'] d IH]; simpl.
  - by intros _ ?%elem_of_nil.
  - intros [Hk' Hnd]%NoDup_cons [[= -> ->]|Hin]%elem_of_cons.
    + by rewrite decide_True.
    + rewrite decide_False; [by apply IH|].
      intros ->. apply Hk'. by apply (list_elem_of_fmap_2 fst) in Hin.
Qed.

Lemma dict_get_None k d : dict_get k d = None ↔ k ∉ keys d.
Proof.
  unfold keys. induction d as [|[k' v'] d IH]; simpl.
  - split; [intros _; apply not_elem_of_nil|done].
  - rewrite not_elem_of_cons. case_decide; [|rewrite IH]; naive_solver.
Qed.

Lemma dict_get_is_Some k d : is_Some (dict_get k d) ↔ k ∈ keys d.
Proof.
  rewrite <-not_eq_None_Some, dict_get_None.
  split; [apply dec_stable|by intros ? ?].
Qed.
End dict_lemmas.

Lemma dict_get_fmap_item {V W : Type} (f : string * V → W) (k : string) (d : dict V) :
  dict_get k ((λ it, (it.1, f it)) <$> d) = (λ v, f (k, v)) <$> dict_get k d.
Proof.
  induction d as [|[k' v'] d IH]; simpl; [done|].
  case_decide; [by subst|done].
Qed.

Lemma keys_fmap_item {V W : Type} (f : string * V → W) (d : dict V) :
  keys ((λ it, (it.1, f it)) <$> d) = keys d.
Proof. unfold keys. rewrite <-list_fmap_compose. by apply list_fmap_ext. Qed.

(** ** transition_model: what the loop builds *)

Section transition.
Variables (num_websites : nat) (page : string) (page_links : gset string).
Variable damping_factor : Q.

Lemma transition_step_Ok item results_dict :
  transition_step num_websites page (Some page_links) damping_factor item results_dict
  = Ok (dict_set item.1
          (transition_value num_websites page page_links damping_factor item)
          results_dict).
Proof.
  destruct item as [website links]. unfold transition_step, transition_value. simpl.
  destruct (size links =? 0)%nat; [done|].
  destruct (String.eqb website page); simpl; [done|].
  by destruct (bool_decide (website ∈ page_links)).
Qed.

Lemma for_each_transition_step (l : graph) (acc : dict Q) :
  NoDup (keys acc ++ keys l) →
  for_each l (transition_step num_websites page (Some page_links) damping_factor) acc
  = Ok (acc ++ ((λ it, (it.1,
          transition_value num_websites page page_links damping_factor it)) <$> l)).
Proof.
  revert acc. induction l as [|item l IH]; intros acc Hnd; simpl.
  - by rewrite app_nil_r.
  - rewrite transition_step_Ok. simpl.
    assert (item.1 ∉ keys acc) as Hfresh.
    { apply NoDup_app in Hnd as (_ & Hdisj & _). intros Hin.
      apply (Hdisj _ Hin). unfold keys. simpl. left. }
    rewrite dict_set_fresh by done. rewrite IH.
    + by rewrite <-app_assoc.
    + unfold keys in *. rewrite fmap_app, <-app_assoc. done.
Qed.
End transition.

Lemma transition_model_items (corpus : graph) (page : string) (d : Q)
    (page_links : gset string) :
  dict_wf corpus → dict_get page corpus = Some page_links →
  transition_model corpus page d
  = Ok ((λ it, (it.1, transition_value (length corpus) page page_links d it)) <$> corpus).
Proof.
  intros Hwf Hpage. unfold transition_model. rewrite Hpage.
  by rewrite for_each_transition_step.
Qed.

(** ** Claims on transition_model *)

Lemma graph_dangling_invariant : graph_invariant graph_dangling.
Proof.
  split; intros page links Hin; unfold graph_dangling in Hin;
    repeat (apply elem_of_cons in Hin as [[= -> ->]|Hin]);
    try (by apply elem_of_nil in Hin); set_solver.
Qed.

(** For every damping factor, the mass of the distribution computed for page
    A of the graph A -> B, B dangling, is 1 - d/2. *)
Lemma transition_model_dangling_mass (d : Q) :
  ∃ r, transition_model graph_dangling "A" d = Ok r ∧ (Qsum (values r) == 1 - d / 2)%Q.
Proof.
  eexists. split; [reflexivity|].
  unfold Qsum, Qnat. simpl. field.
Qed.

(** C1 (sum of the transition distribution is 1): the code breaks it.  On the
    graph A -> B with B dangling, which satisfies the graph invariant, and
    d = 0.85, the distribution computed for the page A sums to 23/40, which is
    not within 1e-9 of 1: the test [len(links) == 0] looks at the links of
    the page being assigned, not at those of the current page. *)
Theorem transition_model_sum_not_one :
  graph_invariant graph_dangling ∧ dict_wf graph_dangling ∧
  "A" ∈ keys graph_dangling ∧
  ∃ r, transition_model graph_dangling "A" DAMPING = Ok r ∧
       (Qsum (values r) == 23 # 40)%Q ∧
       ¬ (Qabs (Qsum (values r) - 1) <= 1 # 1000000000)%Q.
Proof.
  split; [apply graph_dangling_invariant|].
  split; [unfold dict_wf; simpl; repeat constructor; set_solver|].
  split; [set_solver|].
  eexists. split; [reflexivity|]. split; [reflexivity|].
  apply Qlt_not_le. reflexivity.
Qed.

(** C2 (a dangling current page gives the uniform distribution): the code
    breaks it.  On the graph A -> B with B dangling and d = 0.85, the
    distribution computed for the dangling page B gives A the value
    (1 - d)/2 = 3/40 and not 1/N = 1/2. *)
Theorem transition_model_dangling_not_uniform :
  dict_get "B" graph_dangling = Some ∅ ∧
  ∃ r v, transition_model graph_dangling "B" DAMPING = Ok r ∧
         dict_get "A" r = Some v ∧ (v == 3 # 40)%Q ∧
         ¬ (v == 1 / Qnat (length graph_dangling))%Q.
Proof.
  split; [reflexivity|].
  eexists _, _. split; [reflexivity|]. split; [reflexivity|].
  split; [reflexivity|]. discriminate.
Qed.

(** C3 (a page linked by a non-dangling current page gets (1 - d)/N + d/L):
    the code breaks it on a graph that satisfies the graph invariant.  On
    A -> B with B dangling and d = 0.85, the current page A has the single
    link B, so B should get (1 - d)/2 + d/1 = 37/40; the code gives B the
    value 1/2, because the test [len(links) == 0] looks at the links of the
    page being assigned and B has none.  The property as the specification
    words it fails there. *)
Theorem transition_model_linked_dangling_value :
  graph_invariant graph_dangling ∧ dict_wf graph_dangling ∧
  dict_get "A" graph_dangling = Some {["B"]} ∧
  size ({["B"]} : gset string) = 1%nat ∧
  (∃ r v, transition_model graph_dangling "A" DAMPING = Ok r ∧
          dict_get "B" r = Some v ∧ (v == 1 # 2)%Q ∧
          ¬ (v == (1 - DAMPING) / Qnat (length graph_dangling) + DAMPING / Qnat 1)%Q) ∧
  ¬ spec_nondangling_values graph_dangling "A" DAMPING.
Proof.
  split; [apply graph_dangling_invariant|].
  split; [unfold dict_wf; simpl; repeat constructor; set_solver|].
  split; [reflexivity|]. split; [by vm_compute|]. split.
  - eexists _, _. split; [reflexivity|]. split; [reflexivity|].
    split; [reflexivity|]. discriminate.
  - intros Hspec.
    destruct (Hspec {["B"]} eq_refl) as (r & Hr & Hall); [by vm_compute|].
    vm_compute in Hr. injection Hr as <-.
    destruct (Hall "B") as (v & Hv & _ & Hin); [set_solver|].
    vm_compute in Hv. injection Hv as <-.
    specialize (Hin ltac:(set_solver)). vm_compute in Hin. discriminate.
Qed.

(** What the loop does store for a page [w] that has links of its own:
    (1 - d)/N when [w] is the current page or is not linked by it, and
    (1 - d)/N + d/L otherwise. *)
Lemma transition_model_nondangling (corpus : graph) (page : string) (d : Q)
    (page_links : gset string) (w : string) (links : gset string) :
  dict_wf corpus →
  dict_get page corpus = Some page_links →
  dict_get w corpus = Some links → size links ≠ 0%nat →
  ∃ r, transition_model corpus page d = Ok r ∧
       dict_get w r = Some
         (if decide (w = page ∨ w ∉ page_links)
          then (1 - d) / Qnat (length corpus)
          else (1 - d) / Qnat (length corpus) + d / Qnat (size page_links))%Q.
Proof.
  intros Hwf Hpage Hw Hlinks.
  eexists. split; [by apply transition_model_items|].
  rewrite dict_get_fmap_item, Hw. simpl. f_equal.
  unfold transition_value. simpl.
  apply Nat.eqb_neq in Hlinks as ->.
  destruct (String.eqb_spec w page) as [->|Hne]; simpl.
  - rewrite decide_True; [done|by left].
  - destruct (bool_decide_reflect (w ∈ page_links)); simpl.
    + rewrite decide_False; [done|]. intros [?|?]; done.
    + rewrite decide_True; [done|by right].
Qed.

(** ** Loops that fill a dictionary *)

Section dict_fill.
Context {V : Type} (f : string → V).

Lemma dict_get_fill p d pages :
  dict_get p (fill f d pages) = if decide (p ∈ pages) then Some (f p) else dict_get p d.
Proof.
  unfold fill. revert d. induction pages as [|a pages IH]; intros d; simpl.
  - done.
  - rewrite IH. destruct (decide (p = a)) as [->|Hne].
    + rewrite dict_get_set_eq. rewrite (decide_True (P := a ∈ a :: pages)) by left.
      by case_decide.
    + rewrite dict_get_set_ne by done.
      case_decide as Hin.
      * rewrite decide_True; [done|by right].
      * rewrite decide_False; [done|]. by intros [?|?]%elem_of_cons.
Qed.

Lemma dict_set_app_fresh k v (pre d : dict V) :
  k ∉ keys pre → dict_set k v (pre ++ d) = pre ++ dict_set k v d.
Proof.
  induction pre as [|[k' v'] pre IH]; simpl; [done|].
  intros [Hne Hk]%not_elem_of_cons. rewrite decide_False by done. by rewrite IH.
Qed.

Lemma fill_own_keys_app (pre d : dict V) :
  NoDup (keys pre ++ keys d) →
  fill f (pre ++ d) (keys d) = pre ++ ((λ it, (it.1, f it.1)) <$> d).
Proof.
  unfold fill. revert pre. induction d as [|[k v] d IH]; intros pre Hnd; simpl; [done|].
  assert (k ∉ keys pre) as Hfresh.
  { apply NoDup_app in Hnd as (_ & Hdisj & _). intros Hin.
    apply (Hdisj _ Hin). unfold keys. simpl. left. }
  rewrite dict_set_app_fresh by done. simpl. rewrite decide_True by done.
  change (pre ++ (k, f k) :: d) with (pre ++ [(k, f k)] ++ d).
  rewrite app_assoc, IH.
  - by rewrite <-app_assoc.
  - unfold keys in *. rewrite fmap_app, <-app_assoc. done.
Qed.

Lemma fill_own_keys (d : dict V) :
  dict_wf d → fill f d (keys d) = (λ it, (it.1, f it.1)) <$> d.
Proof. intros Hwf. by apply (fill_own_keys_app []). Qed.

Lemma keys_fill_subseteq (d : dict V) pages p : p ∈ keys d → p ∈ keys (fill f d pages).
Proof.
  intros Hp. apply dict_get_is_Some. rewrite dict_get_fill.
  case_decide; [done|]. by apply dict_get_is_Some.
Qed.

Lemma keys_fill_pages (d : dict V) pages p : p ∈ pages → p ∈ keys (fill f d pages).
Proof.
  intros Hp. apply dict_get_is_Some. rewrite dict_get_fill. by rewrite decide_True.
Qed.

Lemma dict_wf_set k v (d : dict V) : dict_wf d → dict_wf (dict_set k v d).
Proof.
  unfold dict_wf. intros Hwf. destruct (decide (k ∈ keys d)) as [Hin|Hout].
  - by rewrite keys_dict_set_mem.
  - rewrite keys_dict_set_fresh by done. apply NoDup_app. split; [done|].
    split; [|apply NoDup_singleton].
    intros x Hx ->%list_elem_of_singleton. done.
Qed.

Lemma dict_wf_fill (d : dict V) pages : dict_wf d → dict_wf (fill f d pages).
Proof.
  unfold fill. revert d. induction pages as [|a pages IH]; intros d Hwf; simpl; [done|].
  apply IH. by apply dict_wf_set.
Qed.
End dict_fill.

Lemma fill_ext {V : Type} (f g : string → V) (d : dict V) (pages : list string) :
  (∀ p, p ∈ pages → f p = g p) → fill f d pages = fill g d pages.
Proof.
  unfold fill. revert d. induction pages as [|a pages IH]; intros d Hfg; simpl; [done|].
  rewrite Hfg by left. apply IH. intros p Hp. apply Hfg. by right.
Qed.

Lemma forallb_ext_elem {A : Type} (f g : A → bool) (l : list A) :
  (∀ x, x ∈ l → f x = g x) → forallb f l = forallb g l.
Proof.
  induction l as [|a l IH]; intros Hfg; simpl; [done|].
  rewrite Hfg by left. f_equal. apply IH. intros x Hx. apply Hfg. by right.
Qed.

(** ** iterate_pagerank: one pass of the loop *)

Section sweep_lemmas.
Variables (corpus : graph) (d : Q).

Lemma total_step_Ok (ranks : dict Q) page q total :
  q ∈ keys corpus → q ∈ keys ranks →
  total_step corpus ranks page q total = Ok (contribution corpus ranks page total q).
Proof.
  intros [links Hlinks]%dict_get_is_Some [pr Hpr]%dict_get_is_Some.
  unfold total_step, contribution, links_of, rank_of, dict_getitem.
  rewrite Hlinks, Hpr. simpl.
  destruct (bool_decide (page ∈ links)); simpl; by destruct (size links =? 0)%nat.
Qed.

Lemma for_each_total_step (ranks : dict Q) page l total :
  l ⊆ keys corpus → l ⊆ keys ranks →
  for_each l (total_step corpus ranks page) total
  = Ok (foldl (contribution corpus ranks page) total l).
Proof.
  revert total. induction l as [|q l IH]; intros total Hc Hr; simpl; [done|].
  rewrite total_step_Ok; [|apply Hc; left|apply Hr; left]. simpl.
  apply IH; intros x Hx; [apply Hc|apply Hr]; by right.
Qed.

Lemma compute_step_Ok (ranks : dict Q) page new :
  keys corpus ⊆ keys ranks →
  compute_step corpus d ranks page new
  = Ok (dict_set page (rank_update corpus d ranks page) new).
Proof.
  intros Hsub. unfold compute_step.
  by rewrite for_each_total_step.
Qed.

Lemma for_each_compute_step (ranks : dict Q) pages new :
  keys corpus ⊆ keys ranks →
  for_each pages (compute_step corpus d ranks) new
  = Ok (fill (rank_update corpus d ranks) new pages).
Proof.
  intros Hsub. revert new. induction pages as [|p pages IH]; intros new; simpl; [done|].
  rewrite compute_step_Ok by done. simpl. apply IH.
Qed.

Lemma commit_step_Ok (cur new : dict Q) (flag : bool) p old v :
  dict_get p cur = Some old → dict_get p new = Some v →
  commit_step p (IterState cur new flag)
  = Ok (IterState (dict_set p v cur) new
          (flag && Qle_bool (Qabs (old - v)) (1 # 1000))).
Proof.
  intros Hold Hv. unfold commit_step, dict_getitem.
  cbn [pagerank new_rank stop]. rewrite Hold, Hv.
  cbn [mbind result_bind].
  destruct (Qle_bool (Qabs (old - v)) (1 # 1000)), flag; reflexivity.
Qed.

(** The second loop, from any point on: the pages still to visit hold their
    old rank, because no page is visited twice. *)
Lemma for_each_commit_step (new : dict Q) todo (cur : dict Q) (flag : bool) :
  NoDup todo → todo ⊆ keys cur → todo ⊆ keys new →
  for_each todo commit_step (IterState cur new flag)
  = Ok (IterState (fill (rank_of new) cur todo) new
          (flag && forallb (λ p, Qle_bool (Qabs (rank_of cur p - rank_of new p)) (1 # 1000))
                     todo)).
Proof.
  revert cur flag. induction todo as [|p todo IH]; intros cur flag Hnd Hcur Hnew.
  - cbn [for_each fill foldl forallb]. by rewrite andb_true_r.
  - apply NoDup_cons in Hnd as [Hp Hnd].
    destruct (proj2 (dict_get_is_Some p cur)) as [old Hold]; [apply Hcur; left|].
    destruct (proj2 (dict_get_is_Some p new)) as [v Hv]; [apply Hnew; left|].
    cbn [for_each]. rewrite (commit_step_Ok _ _ _ _ old v) by done.
    cbn [mbind result_bind].
    rewrite IH; [|done| |intros x Hx; apply Hnew; by right].
    + assert (rank_of new p = v) as Hv' by (unfold rank_of; by rewrite Hv).
      assert (rank_of cur p = old) as Hold' by (unfold rank_of; by rewrite Hold).
      cbn [fill foldl forallb]. rewrite Hv', Hold'. f_equal. f_equal.
      rewrite <-andb_assoc. f_equal. f_equal.
      apply forallb_ext_elem. intros q Hq.
      unfold rank_of. rewrite dict_get_set_ne; [done|]. by intros ->.
    + intros x Hx. apply (keys_fill_subseteq (λ _, v) _ [p]). apply Hcur. by right.
Qed.

(** One pass computes every new rank from the ranks it started with, and
    sets the flag when no page moved by more than the threshold; what the
    scratch dictionary held before does not matter. *)
Lemma sweep_Ok (st : iter_state) :
  dict_wf (pagerank st) → keys corpus ⊆ keys (pagerank st) →
  sweep corpus d st
  = Ok (IterState (next_ranks corpus d (pagerank st))
          (fill (rank_update corpus d (pagerank st)) (new_rank st) (keys (pagerank st)))
          (settled corpus d (pagerank st))).
Proof.
  intros Hwf Hsub. unfold sweep.
  rewrite for_each_compute_step by done. simpl.
  set (new := fill _ _ _).
  assert (∀ p, p ∈ keys (pagerank st) →
               rank_of new p = rank_update corpus d (pagerank st) p) as Hnew.
  { intros p Hp. unfold rank_of, new. rewrite dict_get_fill. by rewrite decide_True. }
  rewrite for_each_commit_step; [|done|done|].
  - f_equal. f_equal.
    + rewrite (fill_ext _ (rank_update corpus d (pagerank st))) by done.
      by apply fill_own_keys.
    + unfold settled. cbn [andb]. apply forallb_ext_elem. intros p Hp.
      by rewrite Hnew.
  - intros p Hp. by apply keys_fill_pages.
Qed.
End sweep_lemmas.

(** ** iterate_pagerank: the loop *)

Section loop_lemmas.
Variables (corpus : graph) (d : Q).

Lemma keys_next_ranks (ranks : dict Q) : keys (next_ranks corpus d ranks) = keys ranks.
Proof. apply keys_fmap_item. Qed.

Lemma initial_ranks_wf : dict_wf (initial_ranks corpus).
Proof. apply (dict_wf_fill (λ _, _) []). apply NoDup_nil_2. Qed.

Lemma initial_ranks_keys : keys corpus ⊆ keys (initial_ranks corpus).
Proof. intros p Hp. by apply (keys_fill_pages (λ _, _) []). Qed.

Lemma iter_next_ranks_keys k (ranks : dict Q) :
  keys (Nat.iter k (next_ranks corpus d) ranks) = keys ranks.
Proof. induction k as [|k IH]; simpl; [done|]. by rewrite keys_next_ranks. Qed.

(** From ranks that are a well-formed dictionary over the pages of the
    corpus, the loop leaves after pass [k], the first settled one, if the
    fuel reaches that far. *)
Lemma while_not_stop_first_settled k : ∀ fuel (ranks scratch : dict Q),
  dict_wf ranks → keys corpus ⊆ keys ranks →
  settled corpus d (Nat.iter k (next_ranks corpus d) ranks) = true →
  (∀ j, (j < k)%nat → settled corpus d (Nat.iter j (next_ranks corpus d) ranks) = false) →
  ∃ scratch',
    while_not_stop fuel corpus d (IterState ranks scratch false)
    = if (k <? fuel)%nat
      then Some (Ok (IterState (Nat.iter (S k) (next_ranks corpus d) ranks) scratch' true))
      else None.
Proof.
  induction k as [|k IH]; intros fuel ranks scratch Hwf Hsub Hk Hbefore.
  - destruct fuel as [|fuel]; [by exists scratch|].
    eexists. cbn [while_not_stop stop]. rewrite sweep_Ok by done.
    cbn [pagerank new_rank] in *. simpl in Hk. rewrite Hk.
    destruct fuel; reflexivity.
  - destruct fuel as [|fuel]; [by exists scratch|].
    cbn [while_not_stop stop]. rewrite sweep_Ok by done.
    cbn [pagerank new_rank]. pose proof (Hbefore 0%nat ltac:(lia)) as H0.
    cbn [Nat.iter nat_rect] in H0. rewrite H0.
    edestruct (IH fuel (next_ranks corpus d ranks)) as [scratch' ->].
    + unfold dict_wf. by rewrite keys_next_ranks.
    + by rewrite keys_next_ranks.
    + by rewrite <-Nat.iter_succ_r.
    + intros j Hj. rewrite <-Nat.iter_succ_r. apply Hbefore. lia.
    + exists scratch'. rewrite <-!Nat.iter_succ_r.
      change (S k <? S fuel)%nat with (k <? fuel)%nat. done.
Qed.

Lemma iterate_pagerank_first_settled k fuel :
  first_settled corpus d k →
  iterate_pagerank fuel corpus d
  = if (k <? fuel)%nat then Some (Ok (ranks_after corpus d (S k))) else None.
Proof.
  intros [Hk Hbefore]. unfold iterate_pagerank.
  destruct (while_not_stop_first_settled k fuel (initial_ranks corpus) [])
    as [scratch' ->]; try done.
  - apply initial_ranks_wf.
  - apply initial_ranks_keys.
  - by destruct (k <? fuel)%nat.
Qed.

(** More fuel does not change what the loop returns. *)
Lemma while_not_stop_more fuel : ∀ extra st r,
  while_not_stop fuel corpus d st = Some r →
  while_not_stop (fuel + extra) corpus d st = Some r.
Proof.
  induction fuel as [|fuel IH]; intros extra st r; simpl.
  - destruct (stop st) eqn:Hstop; [|done]. intros <-.
    destruct extra; simpl; by rewrite Hstop.
  - destruct (stop st); [done|].
    destruct (sweep corpus d st); [apply IH|done].
Qed.

Lemma iterate_pagerank_more fuel extra r :
  iterate_pagerank fuel corpus d = Some r →
  iterate_pagerank (fuel + extra) corpus d = Some r.
Proof.
  unfold iterate_pagerank. intros Hr.
  destruct (while_not_stop fuel _ _ _) as [r0|] eqn:Hloop; [|done].
  by rewrite (while_not_stop_more _ extra _ _ Hloop).
Qed.

Lemma iterate_pagerank_fuel_unique fuel1 fuel2 r1 r2 :
  iterate_pagerank fuel1 corpus d = Some r1 →
  iterate_pagerank fuel2 corpus d = Some r2 →
  r1 = r2.
Proof.
  intros H1 H2. destruct (Nat.le_ge_cases fuel1 fuel2) as [Hle|Hle].
  - apply (iterate_pagerank_more _ (fuel2 - fuel1)) in H1.
    replace (fuel1 + (fuel2 - fuel1))%nat with fuel2 in H1 by lia. congruence.
  - apply (iterate_pagerank_more _ (fuel1 - fuel2)) in H2.
    replace (fuel2 + (fuel1 - fuel2))%nat with fuel1 in H2 by lia. congruence.
Qed.
End loop_lemmas.

Lemma ranks_after_wf (corpus : graph) (d : Q) (k : nat) : dict_wf (ranks_after corpus d k).
Proof.
  unfold dict_wf, ranks_after. rewrite iter_next_ranks_keys. apply initial_ranks_wf.
Qed.

Lemma ranks_after_keys (corpus : graph) (d : Q) (k : nat) :
  keys corpus ⊆ keys (ranks_after corpus d k).
Proof.
  unfold ranks_after. rewrite iter_next_ranks_keys. apply initial_ranks_keys.
Qed.

(** ** Claims on iterate_pagerank *)

Lemma graph_dangling_first_settled : first_settled graph_dangling DAMPING 7.
Proof.
  split; [vm_compute; reflexivity|].
  intros j Hj. do 7 (destruct j as [|j]; [vm_compute; reflexivity|]). lia.
Qed.

Lemma graph_dangling_returns :
  iterate_pagerank 8 graph_dangling DAMPING
  = Some (Ok (ranks_after graph_dangling DAMPING 8)).
Proof. vm_compute. reflexivity. Qed.

(** C5 as worded fails: whatever the fuel, the ranks returned for A -> B with
    B dangling are not both within 0.001 of one half. *)
Lemma spec_dangling_pair_is_half_fails : ¬ spec_dangling_pair_is_half.
Proof.
  intros (fuel & r & Hr & Hhalf).
  pose proof (iterate_pagerank_fuel_unique _ _ _ _ _ _ Hr graph_dangling_returns) as [= ->].
  assert (dict_get "A" (ranks_after graph_dangling DAMPING 8)
          = Some (rank_of (ranks_after graph_dangling DAMPING 8) "A")) as HA
    by (vm_compute; reflexivity).
  apply Hhalf in HA. apply Qle_bool_iff in HA. vm_compute in HA. discriminate.
Qed.

(** C5, amended: on the graph A -> B with B dangling and d = 0.85,
    [iterate_pagerank] returns after exactly eight passes, with ranks within
    0.001 of A = 20/57 and B = 37/57, the fixed point of the update; the rank of
    A is not within 0.001 of one half. *)
Theorem iterate_pagerank_dangling_pair :
  iterate_pagerank 7 graph_dangling DAMPING = None ∧
  ∃ r, iterate_pagerank 8 graph_dangling DAMPING = Some (Ok r) ∧
    keys r = ["A"; "B"] ∧
    (Qabs (rank_of r "A" - (20 # 57)) <= 1 # 1000)%Q ∧
    (Qabs (rank_of r "B" - (37 # 57)) <= 1 # 1000)%Q ∧
    ¬ (Qabs (rank_of r "A" - (1 # 2)) <= 1 # 1000)%Q ∧
    (rank_update graph_dangling DAMPING [("A", 20 # 57); ("B", 37 # 57)] "A" == 20 # 57)%Q ∧
    (rank_update graph_dangling DAMPING [("A", 20 # 57); ("B", 37 # 57)] "B" == 37 # 57)%Q.
Proof.
  split; [vm_compute; reflexivity|].
  exists (ranks_after graph_dangling DAMPING 8).
  split; [apply graph_dangling_returns|].
  split; [vm_compute; reflexivity|].
  split; [apply Qle_bool_iff; vm_compute; reflexivity|].
  split; [apply Qle_bool_iff; vm_compute; reflexivity|].
  split; [intros Hle%Qle_bool_iff; vm_compute in Hle; discriminate|].
  split; apply Qeq_bool_iff; vm_compute; reflexivity.
Qed.

(** C6: every pass of the loop replaces the rank of every page by
    [rank_update] of the ranks the pass started with (whatever the scratch
    dictionary and the flag held), and sets the flag exactly when no page moved
    by more than 0.001; if pass [k] is the first such pass, the function returns
    the ranks after pass [k], needing more than [k] units of fuel to do so. *)
Theorem iterate_pagerank_synchronous (corpus : graph) (d : Q) (k fuel : nat) :
  first_settled corpus d k →
  (∀ j scratch flag, ∃ scratch',
      sweep corpus d (IterState (ranks_after corpus d j) scratch flag)
      = Ok (IterState (next_ranks corpus d (ranks_after corpus d j)) scratch'
              (settled corpus d (ranks_after corpus d j)))) ∧
  iterate_pagerank fuel corpus d
  = if (k <? fuel)%nat then Some (Ok (ranks_after corpus d (S k))) else None.
Proof.
  intros Hk. split; [|by apply iterate_pagerank_first_settled].
  intros j scratch flag. eexists. rewrite sweep_Ok; [reflexivity| |].
  - apply ranks_after_wf.
  - apply ranks_after_keys.
Qed.

Lemma iterate_pagerank_synchronous_witness :
  first_settled graph_dangling DAMPING 7 ∧
  iterate_pagerank 8 graph_dangling DAMPING
  = Some (Ok (ranks_after graph_dangling DAMPING 8)).
Proof.
  split; [apply graph_dangling_first_settled|].
  exact (proj2 (iterate_pagerank_synchronous graph_dangling DAMPING 7 8
                  graph_dangling_first_settled)).
Defined.

(** ** Sums of rationals *)

Lemma foldl_Qplus (a : Q) (l : list Q) : (foldl Qplus a l == a + Qsum l)%Q.
Proof.
  unfold Qsum. revert a. induction l as [|x l IH]; intros a; simpl.
  - ring.
  - rewrite (IH (a + x)%Q), (IH (0 + x)%Q). ring.
Qed.

Lemma Qsum_cons (x : Q) (l : list Q) : (Qsum (x :: l) == x + Qsum l)%Q.
Proof. unfold Qsum at 1. simpl. rewrite foldl_Qplus. ring. Qed.

Section Qsum_fmap.
Context {A : Type}.
Implicit Types (f g : A → Q) (l : list A).

Lemma Qsum_fmap_ext f g l :
  (∀ x, x ∈ l → (f x == g x)%Q) → (Qsum (f <$> l) == Qsum (g <$> l))%Q.
Proof.
  induction l as [|a l IH]; intros Hfg; [reflexivity|].
  rewrite !fmap_cons, !Qsum_cons.
  rewrite IH by (intros; apply Hfg; by right).
  rewrite (Hfg a) by left. reflexivity.
Qed.

Lemma Qsum_fmap_plus f g l :
  (Qsum ((λ x, f x + g x) <$> l) == Qsum (f <$> l) + Qsum (g <$> l))%Q.
Proof.
  induction l as [|a l IH]; [reflexivity|].
  rewrite !fmap_cons, !Qsum_cons, IH. ring.
Qed.

Lemma Qsum_fmap_scale (c : Q) f l :
  (Qsum ((λ x, c * f x) <$> l) == c * Qsum (f <$> l))%Q.
Proof.
  induction l as [|a l IH]; [unfold Qsum; simpl; ring|].
  rewrite !fmap_cons, !Qsum_cons, IH. ring.
Qed.

Lemma Qsum_fmap_const (c : Q) l :
  (Qsum ((λ _, c) <$> l) == Qnat (length l) * c)%Q.
Proof.
  induction l as [|a l IH]; [unfold Qsum, Qnat; simpl; ring|].
  rewrite fmap_cons, Qsum_cons, IH. unfold Qnat. cbn [length].
  rewrite Nat2Z.inj_succ, <-Z.add_1_r, inject_Z_plus. ring.
Qed.
End Qsum_fmap.

Lemma Qsum_fmap_swap {A B : Type} (f : A → B → Q) (la : list A) (lb : list B) :
  (Qsum ((λ a, Qsum ((λ b, f a b) <$> lb)) <$> la)
   == Qsum ((λ b, Qsum ((λ a, f a b) <$> la)) <$> lb))%Q.
Proof.
  induction la as [|a la IH].
  - rewrite (Qsum_fmap_const 0%Q lb). unfold Qsum at 1. simpl. ring.
  - rewrite fmap_cons, Qsum_cons, IH, <-Qsum_fmap_plus.
    apply Qsum_fmap_ext. intros b _. rewrite fmap_cons, Qsum_cons. reflexivity.
Qed.

(** ** Counting the pages of a set *)

Lemma Qsum_indicator (links : gset string) (x : Q) (pages : list string) :
  (Qsum ((λ p, if bool_decide (p ∈ links) then x else 0) <$> pages)
   == Qnat (length (filter (λ p, p ∈ links) pages)) * x)%Q.
Proof.
  induction pages as [|a pages IH]; [unfold Qsum, Qnat; simpl; ring|].
  rewrite fmap_cons, Qsum_cons, IH, filter_cons.
  destruct (bool_decide_reflect (a ∈ links)) as [Hin|Hout].
  - rewrite decide_True by done. cbn [length]. unfold Qnat.
    rewrite Nat2Z.inj_succ, <-Z.add_1_r, inject_Z_plus. ring.
  - rewrite decide_False by done. ring.
Qed.

Lemma length_filter_links (links : gset string) (pages : list string) :
  NoDup pages → (∀ p, p ∈ links → p ∈ pages) →
  length (filter (λ p, p ∈ links) pages) = size links.
Proof.
  intros Hnd Hsub. unfold size, set_size. simpl.
  apply Permutation_length, NoDup_Permutation.
  - by apply NoDup_filter.
  - apply NoDup_elements.
  - intros p. rewrite list_elem_of_filter, elem_of_elements. naive_solver.
Qed.

Lemma Qnat_nonzero (n : nat) : n ≠ 0%nat → ¬ (Qnat n == 0)%Q.
Proof.
  intros Hn Heq. unfold Qnat, Qeq in Heq. simpl in Heq. lia.
Qed.

Lemma values_rank_of (ranks : dict Q) :
  dict_wf ranks → rank_of ranks <$> keys ranks = values ranks.
Proof.
  unfold dict_wf, keys, values, rank_of.
  induction ranks as [|[k v] ranks IH]; [done|].
  rewrite !fmap_cons. intros [Hk Hnd]%NoDup_cons. cbn [fst snd dict_get].
  rewrite decide_True by done. cbn [default]. f_equal.
  rewrite <-IH by done. apply list_fmap_ext. intros i p Hp.
  rewrite decide_False; [done|]. intros ->.
  apply Hk. by apply list_elem_of_lookup_2 in Hp.
Qed.

(** ** iterate_pagerank: the total rank *)

Section mass.
Variables (corpus : graph) (d : Q) (ranks : dict Q).

Lemma contribution_share page total q :
  (contribution corpus ranks page total q == total + share corpus ranks page q)%Q.
Proof.
  unfold contribution, share.
  destruct (bool_decide _), (size _ =? 0)%nat; ring.
Qed.

Lemma foldl_contribution page (l : list string) total :
  (foldl (contribution corpus ranks page) total l
   == total + Qsum (share corpus ranks page <$> l))%Q.
Proof.
  revert total. induction l as [|q l IH]; intros total.
  - unfold Qsum. simpl. ring.
  - rewrite fmap_cons, Qsum_cons. cbn [foldl]. rewrite IH, contribution_share. ring.
Qed.

Lemma rank_total_share page :
  (rank_total corpus ranks page == Qsum (share corpus ranks page <$> keys corpus))%Q.
Proof. unfold rank_total. rewrite foldl_contribution. ring. Qed.

(** A page gives away exactly its rank: to the pages it links to when it
    has links, all of them pages of the corpus, and to every page otherwise. *)
Lemma share_column (pages : list string) q :
  NoDup pages → (∀ p, p ∈ links_of corpus q → p ∈ pages) →
  length pages = length corpus → length corpus ≠ 0%nat →
  (Qsum ((λ p, share corpus ranks p q) <$> pages) == rank_of ranks q)%Q.
Proof.
  intros Hnd Hsub Hlen Hne. unfold share. cbv zeta.
  rewrite (Qsum_fmap_plus
             (λ p, if bool_decide (p ∈ links_of corpus q)
                   then rank_of ranks q / Qnat (size (links_of corpus q)) else 0)%Q
             (λ _, if (size (links_of corpus q) =? 0)%nat
                   then rank_of ranks q / Qnat (length corpus) else 0)%Q).
  rewrite Qsum_indicator, Qsum_fmap_const, length_filter_links, Hlen by done.
  destruct (Nat.eqb_spec (size (links_of corpus q)) 0) as [->|Hsize].
  - change (Qnat 0) with 0%Q. rewrite Qmult_0_l, Qplus_0_l.
    field. by apply Qnat_nonzero.
  - field. by apply Qnat_nonzero.
Qed.

Lemma next_ranks_mass :
  dict_wf corpus → links_closed corpus → keys ranks = keys corpus → corpus ≠ [] →
  (Qsum (values (next_ranks corpus d ranks)) == (1 - d) + d * Qsum (values ranks))%Q.
Proof.
  intros Hwf Hclosed Hkeys Hne.
  assert (length corpus ≠ 0%nat) as Hlen by (by destruct corpus).
  assert (dict_wf ranks) as Hwfr by (unfold dict_wf; by rewrite Hkeys).
  assert (values (next_ranks corpus d ranks)
          = rank_update corpus d ranks <$> keys ranks) as ->.
  { unfold values, next_ranks, keys. by rewrite <-!list_fmap_compose. }
  unfold rank_update.
  rewrite (Qsum_fmap_plus (λ _, (1 - d) / Qnat (length corpus))%Q
             (λ p, d * rank_total corpus ranks p)%Q).
  rewrite Qsum_fmap_const, Qsum_fmap_scale.
  rewrite (Qsum_fmap_ext (rank_total corpus ranks)
             (λ p, Qsum ((λ q, share corpus ranks p q) <$> keys corpus)))
    by (intros p _; apply rank_total_share).
  rewrite (Qsum_fmap_swap (share corpus ranks)).
  rewrite (Qsum_fmap_ext _ (rank_of ranks)).
  - rewrite <-Hkeys, values_rank_of by done.
    rewrite Hkeys. unfold keys. rewrite length_fmap.
    field. by apply Qnat_nonzero.
  - intros q Hq. apply share_column.
    + by rewrite Hkeys.
    + intros p Hp. rewrite Hkeys. unfold links_of in Hp.
      destruct (dict_get q corpus) as [links|] eqn:Hlinks; [|set_solver].
      eapply Hclosed; [by apply dict_get_Some_elem|done].
    + rewrite Hkeys. unfold keys. by rewrite length_fmap.
    + done.
Qed.
End mass.

Lemma fill_fresh {V : Type} (f : string → V) (d : dict V) (pages : list string) :
  NoDup (keys d ++ pages) → fill f d pages = d ++ ((λ p, (p, f p)) <$> pages).
Proof.
  unfold fill. revert d. induction pages as [|p pages IH]; intros d Hnd.
  - by rewrite app_nil_r.
  - cbn [foldl]. rewrite fmap_cons.
    assert (p ∉ keys d) as Hfresh.
    { apply NoDup_app in Hnd as (_ & Hdisj & _). intros Hin. apply (Hdisj _ Hin). left. }
    rewrite dict_set_fresh by done. rewrite IH.
    + by rewrite <-app_assoc.
    + unfold keys in *. rewrite fmap_app, <-app_assoc. done.
Qed.

Section mass_loop.
Variables (corpus : graph) (d : Q).
Hypothesis Hwf : dict_wf corpus.

Lemma initial_ranks_uniform :
  initial_ranks corpus = (λ p, (p, 1 / Qnat (length corpus))%Q) <$> keys corpus.
Proof.
  apply (fill_fresh (λ _, 1 / Qnat (length corpus))%Q [] (keys corpus)), Hwf.
Qed.

Lemma keys_initial_ranks : keys (initial_ranks corpus) = keys corpus.
Proof.
  rewrite initial_ranks_uniform. unfold keys at 1.
  rewrite <-list_fmap_compose. apply list_fmap_id.
Qed.

Lemma keys_ranks_after k : keys (ranks_after corpus d k) = keys corpus.
Proof. unfold ranks_after. by rewrite iter_next_ranks_keys, keys_initial_ranks. Qed.

Lemma initial_ranks_mass : corpus ≠ [] → (Qsum (values (initial_ranks corpus)) == 1)%Q.
Proof.
  intros Hne. rewrite initial_ranks_uniform. unfold values.
  rewrite <-list_fmap_compose.
  rewrite (Qsum_fmap_const (1 / Qnat (length corpus))%Q (keys corpus)).
  unfold keys. rewrite length_fmap. field.
  apply Qnat_nonzero. by destruct corpus.
Qed.

Lemma ranks_after_mass k :
  links_closed corpus → corpus ≠ [] →
  (Qsum (values (ranks_after corpus d k)) == 1)%Q.
Proof.
  intros Hclosed Hne. induction k as [|k IH].
  - by apply initial_ranks_mass.
  - change (ranks_after corpus d (S k))
      with (next_ranks corpus d (ranks_after corpus d k)).
    rewrite next_ranks_mass, IH by (try done; apply keys_ranks_after). ring.
Qed.
End mass_loop.

Section loop_returns.
Variables (corpus : graph) (d : Q).

(** Whatever the loop returns is the ranks after some number of passes; in
    particular no lookup of the loop ever raises. *)
Lemma while_not_stop_returns fuel : ∀ (ranks scratch : dict Q) r,
  dict_wf ranks → keys corpus ⊆ keys ranks →
  while_not_stop fuel corpus d (IterState ranks scratch false) = Some r →
  ∃ k scratch',
    r = Ok (IterState (Nat.iter (S k) (next_ranks corpus d) ranks) scratch' true).
Proof.
  induction fuel as [|fuel IH]; intros ranks scratch r Hwf Hsub; [done|].
  cbn [while_not_stop stop]. rewrite sweep_Ok by done. cbn [pagerank new_rank].
  destruct (settled corpus d ranks) eqn:Hsettled.
  - destruct fuel; cbn [while_not_stop stop]; intros [= <-];
      eexists 0%nat, _; reflexivity.
  - intros Hr. apply IH in Hr as (k & scratch' & ->).
    + exists (S k), scratch'. by rewrite <-!Nat.iter_succ_r.
    + unfold dict_wf. by rewrite keys_next_ranks.
    + by rewrite keys_next_ranks.
Qed.

Lemma iterate_pagerank_returns fuel r :
  iterate_pagerank fuel corpus d = Some r →
  ∃ k, r = Ok (ranks_after corpus d (S k)).
Proof.
  unfold iterate_pagerank. intros Hr.
  destruct (while_not_stop fuel _ _ _) as [r0|] eqn:Hloop; [|done].
  apply while_not_stop_returns in Hloop as (k & scratch' & ->).
  - exists k. by injection Hr as <-.
  - apply initial_ranks_wf.
  - apply initial_ranks_keys.
Qed.
End loop_returns.

(** C10: on a non-empty graph whose link targets are all pages of the graph,
    a pass of the loop that starts from ranks summing to 1 ends with ranks
    summing to 1; the ranks after every number of passes from the uniform start
    sum to 1, and so do the ranks the function returns. *)
Theorem iterate_pagerank_mass (corpus : graph) (d : Q) :
  dict_wf corpus → links_closed corpus → corpus ≠ [] →
  (∀ ranks scratch flag,
     keys ranks = keys corpus → (Qsum (values ranks) == 1)%Q →
     ∃ st', sweep corpus d (IterState ranks scratch flag) = Ok st' ∧
            (Qsum (values (pagerank st')) == 1)%Q) ∧
  (∀ k, (Qsum (values (ranks_after corpus d k)) == 1)%Q) ∧
  (∀ fuel r, iterate_pagerank fuel corpus d = Some r →
     ∃ ranks, r = Ok ranks ∧ (Qsum (values ranks) == 1)%Q).
Proof.
  intros Hwf Hclosed Hne. split; [|split].
  - intros ranks scratch flag Hkeys Hone. eexists. split.
    + apply sweep_Ok; cbn [pagerank].
      * unfold dict_wf. by rewrite Hkeys.
      * by rewrite Hkeys.
    + cbn [pagerank]. rewrite next_ranks_mass, Hone by done. ring.
  - intros k. by apply ranks_after_mass.
  - intros fuel r [k ->]%iterate_pagerank_returns. eexists. split; [done|].
    by apply ranks_after_mass.
Qed.

(** Without the closure of the links the mass is not kept: a page whose only
    link leaves the corpus gives its rank to nobody. *)
Lemma mass_leaks_outside_corpus :
  (Qsum (values (ranks_after [("A", {["X"]})] DAMPING 1)) == 15 # 100)%Q.
Proof. apply Qeq_bool_iff. vm_compute. reflexivity. Qed.

Lemma graph_dangling_wf : dict_wf graph_dangling.
Proof. unfold dict_wf. simpl. repeat constructor; set_solver. Qed.

Lemma iterate_pagerank_mass_witness :
  dict_wf graph_dangling ∧ links_closed graph_dangling ∧ graph_dangling ≠ [] ∧
  (Qsum (values (ranks_after graph_dangling DAMPING 3)) == 1)%Q.
Proof.
  split; [apply graph_dangling_wf|].
  split; [apply graph_dangling_invariant|].
  split; [done|].
  apply (iterate_pagerank_mass graph_dangling DAMPING).
  - apply graph_dangling_wf.
  - apply graph_dangling_invariant.
  - done.
Defined.

(** ** transition_model on a page that is not in the graph *)

Section transition_missing.
Variables (num_websites : nat) (page : string) (damping_factor : Q).

Lemma for_each_transition_step_TypeError (l : graph) (acc : dict Q) :
  page ∉ keys l →
  (∃ w links, (w, links) ∈ l ∧ size links ≠ 0%nat) →
  for_each l (transition_step num_websites page None damping_factor) acc
  = Raise TypeError.
Proof.
  revert acc. induction l as [|[w links] l IH]; intros acc Hpage Hex.
  - destruct Hex as (? & ? & []%elem_of_nil & _).
  - apply not_elem_of_cons in Hpage as [Hne Hpage]. cbn [for_each transition_step].
    destruct (Nat.eqb_spec (size links) 0) as [Hsize|Hsize].
    + cbn [mbind result_bind]. apply IH; [done|].
      destruct Hex as (w' & links' & [[= -> ->]|Hin]%elem_of_cons & Hsz); [done|eauto].
    + destruct (String.eqb_spec w page) as [->|_]; [done|reflexivity].
Qed.

Lemma for_each_transition_step_dangling (l : graph) (acc : dict Q) :
  NoDup (keys acc ++ keys l) →
  (∀ w links, (w, links) ∈ l → size links = 0%nat) →
  for_each l (transition_step num_websites page None damping_factor) acc
  = Ok (acc ++ ((λ it, (it.1, 1 / Qnat num_websites)%Q) <$> l)).
Proof.
  revert acc. induction l as [|[w links] l IH]; intros acc Hnd Hall.
  - by rewrite app_nil_r.
  - cbn [for_each transition_step]. rewrite (Hall w links) by left.
    cbn [Nat.eqb mbind result_bind].
    assert (w ∉ keys acc) as Hfresh.
    { apply NoDup_app in Hnd as (_ & Hdisj & _). intros Hin. apply (Hdisj _ Hin). left. }
    rewrite dict_set_fresh by done. rewrite IH.
    + by rewrite fmap_cons, <-app_assoc.
    + unfold keys in *. rewrite fmap_app, <-app_assoc. done.
    + intros w' links' Hin. apply (Hall w' links'). by right.
Qed.
End transition_missing.

(** ** sample_pagerank *)

Section sampling_lemmas.
Context {rng : Type}.
Variable random_choice : list string → rng → result (string * rng).
Variable random_choices : list string → list Q → rng → result (string * rng).

Lemma sample_step_samples corpus d websites (x : Z) (w w' : walk rng) :
  sample_step random_choices corpus d websites x w = Ok w' →
  walk_samples w' = walk_samples w ++ [walk_page w'].
Proof.
  unfold sample_step.
  destruct (transition_model corpus (walk_page w) d) as [prediction|];
    cbn [mbind result_bind]; [|done].
  destruct (random_choices websites (values prediction) (walk_rng w)) as [drawn|];
    cbn [mbind result_bind]; [|done].
  by intros [= <-].
Qed.



Lemma sample_pagerank_empty d n g :
  random_choice [] g = Raise IndexError →
  sample_pagerank random_choice random_choices [] d n g = Raise IndexError.
Proof.
  intros Hempty. unfold sample_pagerank, sample_walk. cbn [keys fmap list_fmap].
  by rewrite Hempty.
Qed.
End sampling_lemmas.

Lemma foldl_dict_set_items {V W : Type} (f : string * V → W) (l : dict V) :
  ∀ acc : dict W, NoDup (keys acc ++ keys l) →
  foldl (λ res it, dict_set it.1 (f it) res) acc l
  = acc ++ ((λ it, (it.1, f it)) <$> l).
Proof.
  induction l as [|it l IH]; intros acc Hnd.
  - by rewrite app_nil_r.
  - cbn [foldl]. rewrite fmap_cons.
    assert (it.1 ∉ keys acc) as Hfresh.
    { apply NoDup_app in Hnd as (_ & Hdisj & _). intros Hin. apply (Hdisj _ Hin). left. }
    rewrite dict_set_fresh by done. rewrite IH.
    + by rewrite <-app_assoc.
    + unfold keys in *. rewrite fmap_app, <-app_assoc. done.
Qed.

Lemma Counter_wf (samples : list string) : dict_wf (Counter samples).
Proof.
  unfold Counter.
  enough (∀ counts : dict nat, dict_wf counts →
            dict_wf (foldl (λ counts x,
              dict_set x (S (default 0%nat (dict_get x counts))) counts) counts samples))
    as H by apply (H []), NoDup_nil_2.
  induction samples as [|x samples IH]; intros counts Hwf; [done|].
  cbn [foldl]. apply IH. by apply dict_wf_set.
Qed.




Section sampling_values.
Context {rng : Type}.
Variable random_choice : list string → rng → result (string * rng).
Variable random_choices : list string → list Q → rng → result (string * rng).

End sampling_values.

(** C4 (the counts are divided by the sample count [n] of the call): the code
    breaks it, dividing by the module constant [SAMPLES] = 10000 instead.
    A walk of n = 4 samples over the two-cycle visits A twice and B twice,
    and the call returns 2/10000 for each page, not 2/4; the values sum to
    4/10000, not to 1 as the docstring asks. *)
Theorem sample_pagerank_divides_by_SAMPLES :
  ∃ a b,
    sample_pagerank cyclic_choice cyclic_choices graph_cycle DAMPING 4 0%nat
    = Ok ([("A", a); ("B", b)], 4%nat) ∧
    (a == 2 # 10000)%Q ∧ (b == 2 # 10000)%Q ∧
    ¬ (a == 2 # 4)%Q ∧ ¬ (a + b == 1)%Q.
Proof.
  exists (Qnat 2 / inject_Z SAMPLES)%Q, (Qnat 2 / inject_Z SAMPLES)%Q.
  split; [vm_compute; reflexivity|].
  repeat split; try (apply Qeq_bool_iff; vm_compute; reflexivity);
    intros Heq%Qeq_bool_iff; vm_compute in Heq; discriminate.
Qed.

(** ** Invalid input *)

Lemma cyclic_choice_empty (g : nat) : cyclic_choice [] g = Raise IndexError.
Proof. unfold cyclic_choice. by rewrite lookup_nil. Qed.

(** C7 as worded fails: on the empty graph [iterate_pagerank] never raises,
    it returns the empty mapping. *)
Lemma spec_invalid_input_aborts_fails : ¬ spec_invalid_input_aborts.
Proof.
  intros (_ & Hiter & _).
  destruct (Hiter DAMPING) as (fuel & e & Hraise).
  by apply iterate_pagerank_returns in Hraise as [k ?].
Qed.

(** C7, amended: no function checks its input.  On the empty graph
    [transition_model] and [iterate_pagerank] return the empty mapping, and
    [sample_pagerank] raises the [IndexError] of [random.choice] on an empty
    sequence.  For a current page that is not a key of the graph,
    [transition_model] raises a [TypeError] when some page of the graph has a
    non-empty outbound set, and returns 1/N for every page otherwise. *)
Theorem invalid_input_behaviour :
  (∀ page d, transition_model [] page d = Ok []) ∧
  (∀ d fuel, iterate_pagerank (S fuel) [] d = Some (Ok [])) ∧
  (∀ (rng : Type) (random_choice : list string → rng → result (string * rng))
     random_choices d n g,
     random_choice [] g = Raise IndexError →
     sample_pagerank random_choice random_choices [] d n g = Raise IndexError) ∧
  (∀ (corpus : graph) page d,
     page ∉ keys corpus →
     (∃ w links, (w, links) ∈ corpus ∧ size links ≠ 0%nat) →
     transition_model corpus page d = Raise TypeError) ∧
  (∀ (corpus : graph) page d,
     dict_wf corpus → page ∉ keys corpus →
     (∀ w links, (w, links) ∈ corpus → size links = 0%nat) →
     transition_model corpus page d
     = Ok ((λ it, (it.1, 1 / Qnat (length corpus))%Q) <$> corpus)).
Proof.
  split; [done|]. split; [by intros d [|fuel]|].
  split; [intros; by apply sample_pagerank_empty|].
  split.
  - intros corpus page d Hpage Hex. unfold transition_model.
    rewrite (proj2 (dict_get_None page corpus) Hpage).
    by apply for_each_transition_step_TypeError.
  - intros corpus page d Hwf Hpage Hall. unfold transition_model.
    rewrite (proj2 (dict_get_None page corpus) Hpage).
    rewrite for_each_transition_step_dangling; [done|exact Hwf|done].
Qed.

Lemma invalid_input_behaviour_witness :
  cyclic_choice [] 0%nat = Raise IndexError ∧
  sample_pagerank cyclic_choice cyclic_choices [] DAMPING 10 0%nat = Raise IndexError ∧
  transition_model graph_dangling "C" DAMPING = Raise TypeError ∧
  transition_model [("A", ∅)] "C" DAMPING = Ok [("A", (1 / Qnat 1)%Q)].
Proof.
  destruct invalid_input_behaviour as (_ & _ & Hsample & Hraise & Huniform).
  split; [apply cyclic_choice_empty|].
  split; [apply Hsample, cyclic_choice_empty|].
  split.
  - apply Hraise; [set_solver|]. exists "A", {["B"]}. split; [left|by vm_compute].
  - apply (Huniform [("A", ∅)] "C" DAMPING).
    + unfold dict_wf. simpl. repeat constructor; set_solver.
    + set_solver.
    + intros w links [[= -> ->]|[]%elem_of_nil]%elem_of_cons. by vm_compute.
Defined.

(** ** crawl: the graph it builds *)

Lemma elem_of_dict_set {V : Type} (k k' : string) (v v' : V) (d : dict V) :
  (k', v') ∈ dict_set k v d → (k', v') = (k, v) ∨ (k', v') ∈ d.
Proof.
  induction d as [|[k0 v0] d IH]; cbn [dict_set].
  - intros ->%list_elem_of_singleton. by left.
  - case_decide as Hk.
    + subst k0. intros [->|Hin]%elem_of_cons; [by left|right; by right].
    + intros [->|Hin]%elem_of_cons; [right; left|].
      destruct (IH Hin) as [?|?]; [by left|right; by right].
Qed.

Lemma dict_get_app_fresh {V : Type} (k : string) (pre d : dict V) :
  k ∉ keys pre → dict_get k (pre ++ d) = dict_get k d.
Proof.
  induction pre as [|[k' v'] pre IH]; [done|].
  intros [Hne Hk]%not_elem_of_cons. cbn [app dict_get].
  rewrite decide_False by done. by apply IH.
Qed.

Section crawl_lemmas.
Variable findall : string → list string.

Lemma read_step_wf (pages : graph) entry :
  dict_wf pages → dict_wf (read_step findall pages entry).
Proof.
  intros Hwf. destruct entry as [filename contents]. unfold read_step.
  destruct (negb (endswith filename ".html")); [done|]. by apply dict_wf_set.
Qed.

Lemma read_step_no_self_links (pages : graph) entry :
  no_self_links pages → no_self_links (read_step findall pages entry).
Proof.
  intros Hno. destruct entry as [filename contents]. unfold read_step.
  destruct (negb (endswith filename ".html")); [done|].
  intros page links [[= -> ->]|Hin]%elem_of_dict_set; [set_solver|by eapply Hno].
Qed.

Lemma foldl_read_step (directory : list (string * string)) : ∀ pages : graph,
  dict_wf pages → no_self_links pages →
  dict_wf (foldl (read_step findall) pages directory) ∧
  no_self_links (foldl (read_step findall) pages directory).
Proof.
  induction directory as [|entry directory IH]; intros pages Hwf Hno; [done|].
  cbn [foldl]. apply IH; [by apply read_step_wf|by apply read_step_no_self_links].
Qed.

Lemma restrict_step_Ok filename (pages : graph) links :
  dict_get filename pages = Some links →
  restrict_step filename pages
  = Ok (dict_set filename (filter (λ link, link ∈ keys pages) links) pages).
Proof. intros Hget. unfold restrict_step, dict_getitem. by rewrite Hget. Qed.

(** The second loop keeps the keys and filters every set of links. *)
Lemma for_each_restrict_step (d : graph) : ∀ pre : graph,
  NoDup (keys pre ++ keys d) →
  for_each (keys d) restrict_step (pre ++ d)
  = Ok (pre ++ ((λ it, (it.1, filter (λ link, link ∈ keys (pre ++ d)) it.2)) <$> d)).
Proof.
  induction d as [|[k v] d IH]; intros pre Hnd.
  - cbn [keys fmap list_fmap for_each]. by rewrite !app_nil_r.
  - assert (k ∉ keys pre) as Hfresh.
    { apply NoDup_app in Hnd as (_ & Hdisj & _). intros Hin. apply (Hdisj _ Hin). left. }
    cbn [keys fmap list_fmap fst for_each].
    rewrite (restrict_step_Ok k _ v)
      by (rewrite dict_get_app_fresh by done; cbn [dict_get]; by rewrite decide_True).
    cbn [mbind result_bind]. rewrite dict_set_app_fresh by done.
    cbn [dict_set]. rewrite decide_True by done.
    set (links := filter _ v).
    change (pre ++ (k, links) :: d) with (pre ++ [(k, links)] ++ d).
    rewrite app_assoc.
    fold (keys d). rewrite IH.
    + assert (keys ((pre ++ [(k, links)]) ++ d) = keys (pre ++ (k, v) :: d)) as ->.
      { unfold keys. by rewrite <-app_assoc, !fmap_app. }
      by rewrite <-app_assoc.
    + unfold keys in *. rewrite fmap_app, <-app_assoc. done.
Qed.

Lemma crawl_Ok (directory : list (string * string)) :
  let pages := foldl (read_step findall) [] directory in
  crawl findall directory
  = Ok ((λ it, (it.1, filter (λ link, link ∈ keys pages) it.2)) <$> pages).
Proof.
  intros pages. unfold crawl. fold pages.
  apply (for_each_restrict_step pages []).
  apply (foldl_read_step directory []); [apply NoDup_nil_2|].
  by intros ? ? ?%elem_of_nil.
Qed.
End crawl_lemmas.

Lemma crawl_wf (findall : string → list string) (directory : list (string * string)) :
  ∃ pages, crawl findall directory = Ok pages ∧ dict_wf pages.
Proof.
  eexists. split; [apply crawl_Ok|].
  unfold dict_wf. rewrite keys_fmap_item.
  apply (foldl_read_step findall directory []); [apply NoDup_nil_2|].
  by intros ? ? ?%elem_of_nil.
Qed.

(** C9: for every directory, [crawl] returns a mapping with each key once,
    in which every link target is a key of the mapping and no page links to
    itself. *)
Theorem crawl_graph_invariant (findall : string → list string)
    (directory : list (string * string)) :
  ∃ pages, crawl findall directory = Ok pages ∧
           dict_wf pages ∧ graph_invariant pages.
Proof.
  eexists. split; [apply crawl_Ok|].
  set (pages := foldl (read_step findall) [] directory).
  destruct (foldl_read_step findall directory []) as [Hwf Hno];
    [apply NoDup_nil_2|by intros ? ? ?%elem_of_nil|].
  fold pages in Hwf, Hno.
  split; [|split].
  - unfold dict_wf. by rewrite keys_fmap_item.
  - intros page links Hin l Hl. rewrite keys_fmap_item.
    apply list_elem_of_fmap in Hin as ([k v] & [= -> ->] & Hkv).
    by apply elem_of_filter in Hl as [Hl _].
  - intros page links Hin Hself.
    apply list_elem_of_fmap in Hin as ([k v] & [= -> ->] & Hkv).
    apply elem_of_filter in Hself as [_ Hself]. by apply (Hno k v).
Qed.

Example crawl_example :
  crawl (λ contents, [contents; "2.html"])
    [("1.html", "2.html"); ("notes.txt", "1.html"); ("2.html", "3.html")]
  = Ok [("1.html", {["2.html"]}); ("2.html", ∅)].
Proof. vm_compute. reflexivity. Qed.

(** ** More on transition_model *)

Lemma Qnat_pos (n : nat) : n ≠ 0%nat → (0 < Qnat n)%Q.
Proof. intros Hn. unfold Qnat, Qlt. simpl. lia. Qed.

Lemma Qdiv_pos (a b : Q) : (0 < a)%Q → (0 < b)%Q → (0 < a / b)%Q.
Proof.
  intros Ha Hb. unfold Qdiv. apply Qmult_lt_0_compat; [done|].
  by apply Qinv_lt_0_compat.
Qed.

Lemma Qdiv_nonneg (a b : Q) : (0 <= a)%Q → (0 < b)%Q → (0 <= a / b)%Q.
Proof.
  intros Ha Hb. unfold Qdiv. apply Qmult_le_0_compat; [done|].
  apply Qlt_le_weak. by apply Qinv_lt_0_compat.
Qed.

Lemma transition_model_keys (corpus : graph) (page : string) (d : Q) :
  dict_wf corpus → page ∈ keys corpus →
  ∃ r, transition_model corpus page d = Ok r ∧ keys r = keys corpus.
Proof.
  intros Hwf [page_links Hpage]%dict_get_is_Some.
  eexists. split; [by apply transition_model_items|]. apply keys_fmap_item.
Qed.

(** X1: when the current page is a key of the corpus, [transition_model]
    does not raise and returns one entry per page of the corpus, in the order
    of the corpus. *)
Theorem transition_model_pages (corpus : graph) (page : string) (d : Q) :
  dict_wf corpus → page ∈ keys corpus →
  ∃ r, transition_model corpus page d = Ok r ∧ keys r = keys corpus.
Proof. apply transition_model_keys. Qed.

Lemma transition_model_pages_witness :
  ∃ r, transition_model graph_dangling "A" DAMPING = Ok r ∧ keys r = keys graph_dangling.
Proof.
  apply transition_model_pages; [apply graph_dangling_wf|set_solver].
Defined.

Lemma transition_model_weights (corpus : graph) (page : string) (d : Q) :
  dict_wf corpus → page ∈ keys corpus → (0 <= d)%Q → (d < 1)%Q →
  ∃ r, transition_model corpus page d = Ok r ∧
       ∀ w v, dict_get w r = Some v → (0 < v)%Q.
Proof.
  intros Hwf Hin Hd0 Hd1.
  pose proof Hin as [page_links Hpage]%dict_get_is_Some.
  eexists. split; [by apply transition_model_items|].
  intros w v. rewrite dict_get_fmap_item.
  destruct (dict_get w corpus) as [links|]; [|done]. intros [= <-].
  assert (0 < Qnat (length corpus))%Q as HN.
  { apply Qnat_pos. destruct corpus; [by apply elem_of_nil in Hin|done]. }
  assert (0 < 1 - d)%Q as H1d by (unfold Qminus; by rewrite <-Qlt_minus_iff).
  unfold transition_value. cbn [fst snd].
  destruct (size links =? 0)%nat; [by apply Qdiv_pos|].
  destruct (String.eqb w page); cbn [orb]; [by apply Qdiv_pos|].
  destruct (bool_decide_reflect (w ∈ page_links)) as [Hw|Hw]; cbn [negb];
    [|by apply Qdiv_pos].
  rewrite <-(Qplus_0_r 0). apply Qplus_lt_le_compat; [by apply Qdiv_pos|].
  apply Qdiv_nonneg; [done|]. apply Qnat_pos.
  intros Hsize%size_empty_inv. set_solver.
Qed.

(** X2: for a damping factor in [0, 1), every value of the mapping that
    [transition_model] returns is strictly positive, so that the weights
    handed to [random.choices] have a positive total. *)
Theorem transition_model_positive (corpus : graph) (page : string) (d : Q) :
  dict_wf corpus → page ∈ keys corpus → (0 <= d)%Q → (d < 1)%Q →
  ∃ r, transition_model corpus page d = Ok r ∧
       ∀ w v, dict_get w r = Some v → (0 < v)%Q.
Proof. apply transition_model_weights. Qed.

Lemma transition_model_positive_witness :
  ∃ r, transition_model graph_dangling "A" DAMPING = Ok r ∧
       ∀ w v, dict_get w r = Some v → (0 < v)%Q.
Proof.
  apply transition_model_positive; [apply graph_dangling_wf|set_solver|done|done].
Defined.

Lemma Qsum_indicator_items {V : Type} (links : gset string) (x : Q) (d : dict V) :
  (Qsum ((λ it, if bool_decide (it.1 ∈ links) then x else 0) <$> d)
   == Qnat (length (filter (λ p, p ∈ links) (keys d))) * x)%Q.
Proof.
  rewrite <-Qsum_indicator. unfold keys. rewrite <-list_fmap_compose. reflexivity.
Qed.

(** X3: on a corpus in which no page is dangling, every link target is a
    page and no page links to itself, the mapping that [transition_model]
    returns for a page of the corpus sums to 1. *)
Theorem transition_model_sum_no_dangling (corpus : graph) (page : string) (d : Q) :
  dict_wf corpus → graph_invariant corpus → page ∈ keys corpus →
  (∀ w links, (w, links) ∈ corpus → size links ≠ 0%nat) →
  ∃ r, transition_model corpus page d = Ok r ∧ (Qsum (values r) == 1)%Q.
Proof.
  intros Hwf [Hclosed Hno] Hin Hnodangling.
  pose proof Hin as [page_links Hpage]%dict_get_is_Some.
  pose proof (dict_get_Some_elem _ _ _ Hpage) as Helem.
  eexists. split; [by apply transition_model_items|].
  assert (values ((λ it, (it.1, transition_value (length corpus) page page_links d it))
                    <$> corpus)
          = transition_value (length corpus) page page_links d <$> corpus) as ->
    by (unfold values; by rewrite <-list_fmap_compose).
  rewrite (Qsum_fmap_ext _
             (λ it, (1 - d) / Qnat (length corpus)
                    + (if bool_decide (it.1 ∈ page_links)
                       then d / Qnat (size page_links) else 0))%Q).
  - rewrite (Qsum_fmap_plus (λ _, (1 - d) / Qnat (length corpus))%Q
               (λ it : string * gset string,
                  if bool_decide (it.1 ∈ page_links)
                  then d / Qnat (size page_links) else 0)%Q).
    rewrite Qsum_fmap_const.
    rewrite Qsum_indicator_items, length_filter_links by (try done; by eapply Hclosed).
    field. split; apply Qnat_nonzero; [by eapply Hnodangling|].
    destruct corpus; [by apply elem_of_nil in Hin|done].
  - intros [w links] Hw. unfold transition_value. cbn [fst snd].
    rewrite (proj2 (Nat.eqb_neq _ _) (Hnodangling _ _ Hw)).
    destruct (String.eqb_spec w page) as [->|Hne]; cbn [orb].
    + rewrite bool_decide_eq_false_2 by (by eapply Hno). ring.
    + destruct (bool_decide (w ∈ page_links)); cbn [negb]; ring.
Qed.

Lemma graph_cycle_wf : dict_wf graph_cycle.
Proof. unfold dict_wf. simpl. repeat constructor; set_solver. Qed.

Lemma graph_cycle_invariant : graph_invariant graph_cycle.
Proof.
  split; intros page links Hin; unfold graph_cycle in Hin;
    repeat (apply elem_of_cons in Hin as [[= -> ->]|Hin]);
    try (by apply elem_of_nil in Hin); set_solver.
Qed.

Lemma graph_cycle_no_dangling w links :
  (w, links) ∈ graph_cycle → size links ≠ 0%nat.
Proof.
  unfold graph_cycle. intros Hin.
  repeat (apply elem_of_cons in Hin as [[= -> ->]|Hin]);
    try (by apply elem_of_nil in Hin); by vm_compute.
Qed.

Lemma transition_model_sum_no_dangling_witness :
  ∃ r, transition_model graph_cycle "A" DAMPING = Ok r ∧ (Qsum (values r) == 1)%Q.
Proof.
  apply transition_model_sum_no_dangling.
  - apply graph_cycle_wf.
  - apply graph_cycle_invariant.
  - set_solver.
  - apply graph_cycle_no_dangling.
Defined.

(** ** More on sample_pagerank *)

(** Number of times [p] occurs in [samples]. *)
Lemma Counter_get_from (p : string) (samples : list string) : ∀ counts : dict nat,
  dict_get p (foldl (λ counts x,
     dict_set x (S (default 0%nat (dict_get x counts))) counts) counts samples)
  = if decide (length (filter (p =.) samples) = 0%nat) then dict_get p counts
    else Some (default 0%nat (dict_get p counts) + length (filter (p =.) samples))%nat.
Proof.
  induction samples as [|x samples IH]; intros counts; [done|].
  cbn [foldl]. rewrite IH, filter_cons. destruct (decide (p = x)) as [<-|Hne].
  - rewrite dict_get_set_eq. cbn [length default].
    rewrite (decide_False (P := S _ = 0%nat)) by done.
    case_decide as Hc; unfold id; f_equal; lia.
  - by rewrite dict_get_set_ne by done.
Qed.

Lemma Counter_get (p : string) (samples : list string) :
  dict_get p (Counter samples)
  = if decide (length (filter (p =.) samples) = 0%nat) then None
    else Some (length (filter (p =.) samples)).
Proof. unfold Counter. by rewrite Counter_get_from. Qed.

Lemma Qsum_pos (l : list Q) :
  l ≠ [] → (∀ v, v ∈ l → (0 < v)%Q) → (0 < Qsum l)%Q.
Proof.
  induction l as [|x l IH]; [done|]. intros _ Hpos. rewrite Qsum_cons.
  destruct l as [|y l].
  - unfold Qsum. simpl. rewrite Qplus_0_r. apply Hpos. left.
  - rewrite <-(Qplus_0_r 0). apply Qplus_lt_le_compat; [apply Hpos; left|].
    apply Qlt_le_weak, IH; [done|]. intros v Hv. apply Hpos. by right.
Qed.

Lemma cyclic_choice_member seq g x g' :
  cyclic_choice seq g = Ok (x, g') → x ∈ seq.
Proof.
  unfold cyclic_choice. destruct (seq !! _) as [y|] eqn:Hy; [|done].
  intros [= <- <-]. by eapply list_elem_of_lookup_2.
Qed.

Lemma cyclic_choices_member population weights g x g' :
  cyclic_choices population weights g = Ok (x, g') → x ∈ population.
Proof.
  unfold cyclic_choices. destruct (negb _); [done|].
  destruct (Qle_bool _ _); [done|]. apply cyclic_choice_member.
Qed.

Lemma cyclic_choice_total seq g :
  seq ≠ [] → ∃ x g', cyclic_choice seq g = Ok (x, g') ∧ x ∈ seq.
Proof.
  intros Hne. unfold cyclic_choice.
  destruct (lookup_lt_is_Some_2 seq (g mod length seq)) as [x Hx].
  - apply Nat.mod_upper_bound. by destruct seq.
  - rewrite Hx. exists x, (S g). split; [done|]. by eapply list_elem_of_lookup_2.
Qed.

Lemma cyclic_choices_total population weights g :
  population ≠ [] → length weights = length population →
  (∀ v, v ∈ weights → (0 < v)%Q) →
  ∃ x g', cyclic_choices population weights g = Ok (x, g') ∧ x ∈ population.
Proof.
  intros Hne Hlen Hpos. unfold cyclic_choices.
  rewrite Hlen, Nat.eqb_refl. cbn [negb].
  destruct (Qle_bool (Qsum weights) 0) eqn:Hle.
  - apply Qle_bool_iff in Hle. exfalso. apply (Qlt_not_le _ _ (Qsum_pos weights
      ltac:(intros ->; by destruct population) Hpos)), Hle.
  - by apply cyclic_choice_total.
Qed.

Section sampling_more.
Context {rng : Type}.
Variable random_choice : list string → rng → result (string * rng).
Variable random_choices : list string → list Q → rng → result (string * rng).



(** X6: with [n] at most 1 (zero and negative counts included) the loop body
    never runs: the call makes the initial draw only and returns that one page
    with the value 1/10000. *)
Theorem sample_pagerank_single corpus d (n : Z) (g g' : rng) (p : string) :
  (n ≤ 1)%Z →
  random_choice (keys corpus) g = Ok (p, g') →
  sample_pagerank random_choice random_choices corpus d n g
  = Ok ([(p, (Qnat 1 / inject_Z SAMPLES)%Q)], g').
Proof.
  intros Hn Hfirst. unfold sample_pagerank, sample_walk.
  rewrite Hfirst, seqZ_nil by lia. cbn [mbind result_bind for_each fst snd app].
  cbn [walk_samples walk_rng Counter foldl dict_get default dict_set fst snd].
  reflexivity.
Qed.

(** The current page of a walk stays among the population the draws are made
    from, when a draw returns a member of its population. *)
Hypothesis random_choice_member : ∀ seq g x g',
  random_choice seq g = Ok (x, g') → x ∈ seq.

Hypothesis random_choices_member : ∀ population weights g x g',
  random_choices population weights g = Ok (x, g') → x ∈ population.

Lemma for_each_sample_step_pages corpus d (xs : list Z) : ∀ (w w' : walk rng),
  (∀ p, p ∈ walk_samples w → p ∈ keys corpus) →
  for_each xs (sample_step random_choices corpus d (keys corpus)) w = Ok w' →
  ∀ p, p ∈ walk_samples w' → p ∈ keys corpus.
Proof.
  induction xs as [|x xs IH]; intros w w' Hw; cbn [for_each].
  - by intros [= <-].
  - destruct (sample_step random_choices corpus d (keys corpus) x w) as [w1|] eqn:Hstep;
      cbn [mbind result_bind]; [|done].
    apply IH. intros p. rewrite (sample_step_samples _ _ _ _ _ _ _ Hstep).
    intros [Hp|Hp]%elem_of_app; [by apply Hw|].
    apply list_elem_of_singleton in Hp as ->.
    revert Hstep. unfold sample_step.
    destruct (transition_model corpus (walk_page w) d) as [prediction|];
      cbn [mbind result_bind]; [|done].
    destruct (random_choices (keys corpus) (values prediction) (walk_rng w))
      as [[page g1]|] eqn:Hdraw; cbn [mbind result_bind]; [|done].
    intros [= <-]. cbn [walk_page fst]. by eapply random_choices_member.
Qed.

(** X7: every page that [sample_pagerank] reports is a page of the corpus, and
    its value is at least 1/10000. *)
Theorem sample_pagerank_pages corpus d (n : Z) (g g' : rng) (res : dict Q) p v :
  sample_pagerank random_choice random_choices corpus d n g = Ok (res, g') →
  dict_get p res = Some v →
  p ∈ keys corpus ∧ (1 # 10000 <= v)%Q.
Proof.
  unfold sample_pagerank.
  destruct (sample_walk random_choice random_choices corpus d n g) as [w|] eqn:Hwalk;
    cbn [mbind result_bind]; [|done].
  intros [= <- <-].
  rewrite (foldl_dict_set_items (λ it, (Qnat it.2 / inject_Z SAMPLES)%Q) _ [])
    by apply Counter_wf.
  cbn [app]. rewrite dict_get_fmap_item, Counter_get.
  case_decide as Hcount; [done|]. intros [= <-]. split.
  - assert (p ∈ walk_samples w) as Hp.
    { destruct (filter (p =.) (walk_samples w)) as [|q l] eqn:Hf; [done|].
      assert (q ∈ filter (p =.) (walk_samples w)) as Hq by (rewrite Hf; left).
      by apply list_elem_of_filter in Hq as [<- ?]. }
    revert Hwalk Hp. unfold sample_walk.
    destruct (random_choice (keys corpus) g) as [[first g1]|] eqn:Hfirst;
      cbn [mbind result_bind]; [|done].
    intros Hloop. eapply for_each_sample_step_pages; [|exact Hloop].
    cbn [walk_samples app fst]. intros q Hq.
    apply list_elem_of_singleton in Hq as ->.
    by eapply random_choice_member.
  - unfold Qnat, Qdiv, Qle. simpl. lia.
Qed.
End sampling_more.

Lemma graph_cycle_sample_four :
  sample_pagerank cyclic_choice cyclic_choices graph_cycle DAMPING 4 0%nat
  = Ok ([("A", (Qnat 2 / inject_Z SAMPLES)%Q); ("B", (Qnat 2 / inject_Z SAMPLES)%Q)], 4%nat).
Proof. vm_compute. reflexivity. Qed.


Lemma sample_pagerank_single_witness :
  (0 ≤ 1)%Z ∧
  cyclic_choice (keys graph_cycle) 0%nat = Ok ("A", 1%nat) ∧
  sample_pagerank cyclic_choice cyclic_choices graph_cycle DAMPING 0 0%nat
  = Ok ([("A", (Qnat 1 / inject_Z SAMPLES)%Q)], 1%nat).
Proof.
  split; [done|]. split; [reflexivity|].
  by apply sample_pagerank_single.
Defined.

Lemma sample_pagerank_pages_witness :
  "A" ∈ keys graph_cycle ∧ (1 # 10000 <= Qnat 2 / inject_Z SAMPLES)%Q.
Proof.
  apply (sample_pagerank_pages cyclic_choice cyclic_choices
           cyclic_choice_member cyclic_choices_member
           graph_cycle DAMPING 4 0%nat 4%nat _ "A" _ graph_cycle_sample_four).
  reflexivity.
Defined.

Section sampling_total.
Context {rng : Type}.
Variable random_choice : list string → rng → result (string * rng).
Variable random_choices : list string → list Q → rng → result (string * rng).

(** The draws behave: a choice from a non-empty sequence returns one of its
    members, and so does a weighted choice when there is one positive weight
    for each member of the population. *)
Hypothesis random_choice_total : ∀ seq g,
  seq ≠ [] → ∃ x g', random_choice seq g = Ok (x, g') ∧ x ∈ seq.

Hypothesis random_choices_total : ∀ population weights g,
  population ≠ [] → length weights = length population →
  (∀ v, v ∈ weights → (0 < v)%Q) →
  ∃ x g', random_choices population weights g = Ok (x, g') ∧ x ∈ population.

Variables (corpus : graph) (d : Q).
Hypothesis corpus_wf : dict_wf corpus.
Hypothesis damping_nonneg : (0 <= d)%Q.
Hypothesis damping_below_one : (d < 1)%Q.

Lemma sample_step_total (x : Z) (w : walk rng) :
  walk_page w ∈ keys corpus →
  ∃ w', sample_step random_choices corpus d (keys corpus) x w = Ok w' ∧
        walk_page w' ∈ keys corpus.
Proof.
  intros Hpage. unfold sample_step.
  destruct (transition_model_weights corpus (walk_page w) d)
    as (prediction & Hr & Hpos); try done.
  destruct (transition_model_keys corpus (walk_page w) d)
    as (prediction' & Hr' & Hkeys); try done.
  rewrite Hr in Hr'. injection Hr' as <-. rewrite Hr. cbn [mbind result_bind].
  destruct (random_choices_total (keys corpus) (values prediction) (walk_rng w))
    as (page & g' & -> & Hin).
  - intros Hnil. rewrite Hnil in Hpage. by apply elem_of_nil in Hpage.
  - rewrite <-Hkeys. unfold values, keys. by rewrite !length_fmap.
  - intros v [[k v'] [-> Hkv]]%list_elem_of_fmap. apply (Hpos k).
    apply dict_get_elem; [|done]. unfold dict_wf. by rewrite Hkeys.
  - cbn [mbind result_bind]. eexists. split; [done|]. done.
Qed.

Lemma for_each_sample_step_total (xs : list Z) : ∀ w : walk rng,
  walk_page w ∈ keys corpus →
  ∃ w', for_each xs (sample_step random_choices corpus d (keys corpus)) w = Ok w'.
Proof.
  induction xs as [|x xs IH]; intros w Hpage; cbn [for_each]; [by eexists|].
  destruct (sample_step_total x w Hpage) as (w1 & -> & Hpage1).
  cbn [mbind result_bind]. by apply IH.
Qed.

Lemma sample_pagerank_returns (n : Z) (g : rng) :
  corpus ≠ [] →
  ∃ res g', sample_pagerank random_choice random_choices corpus d n g = Ok (res, g').
Proof.
  intros Hne. unfold sample_pagerank, sample_walk.
  destruct (random_choice_total (keys corpus) g) as (first & g1 & -> & Hfirst).
  { by destruct corpus. }
  cbn [mbind result_bind fst snd].
  destruct (for_each_sample_step_total (seqZ 1 (n - 1)) (Walk first ([] ++ [first]) g1))
    as [w ->]; [done|].
  cbn [mbind result_bind]. by eexists _, _.
Qed.

(** X8: on a non-empty corpus and for a damping factor in [0, 1), a call does
    not raise when the draws behave: the current page is always a page of the
    corpus, so [transition_model] never raises, and the weights it returns
    are one positive number for each page. *)
Theorem sample_pagerank_total (n : Z) (g : rng) :
  corpus ≠ [] →
  ∃ res g', sample_pagerank random_choice random_choices corpus d n g = Ok (res, g').
Proof. apply sample_pagerank_returns. Qed.
End sampling_total.


Lemma sample_pagerank_total_witness :
  ∃ res g', sample_pagerank cyclic_choice cyclic_choices graph_cycle DAMPING 25 7%nat
            = Ok (res, g').
Proof.
  apply (sample_pagerank_total cyclic_choice cyclic_choices
           cyclic_choice_total cyclic_choices_total graph_cycle DAMPING
           graph_cycle_wf); done.
Defined.

(** ** More on iterate_pagerank *)

(** X9: on a well-formed corpus, whatever [iterate_pagerank] returns is a
    mapping, never an exception, and it holds exactly the pages of the corpus,
    in the order of the corpus. *)
Theorem iterate_pagerank_pages (corpus : graph) (d : Q) (fuel : nat)
    (out : result (dict Q)) :
  dict_wf corpus →
  iterate_pagerank fuel corpus d = Some out →
  ∃ r, out = Ok r ∧ keys r = keys corpus.
Proof.
  intros Hwf [k ->]%iterate_pagerank_returns.
  eexists. split; [done|]. by apply keys_ranks_after.
Qed.

Lemma iterate_pagerank_pages_witness :
  ∃ r, Ok (ranks_after graph_dangling DAMPING 8) = Ok r ∧ keys r = keys graph_dangling.
Proof.
  apply (iterate_pagerank_pages graph_dangling DAMPING 8);
    [apply graph_dangling_wf|apply graph_dangling_returns].
Defined.



(** *** Bounds on the ranks *)

Lemma Qdiv_Qnat_nonneg (r : Q) (n : nat) : (0 <= r)%Q → (0 <= r / Qnat n)%Q.
Proof.
  intros Hr. unfold Qdiv. apply Qmult_le_0_compat; [done|].
  apply Qinv_le_0_compat. unfold Qnat, Qle. simpl. lia.
Qed.

Lemma Qsum_upper (l : list Q) (v : Q) :
  (∀ x, x ∈ l → (0 <= x)%Q) → v ∈ l → (v <= Qsum l)%Q.
Proof.
  induction l as [|x l IH]; intros Hpos Hv; [by apply elem_of_nil in Hv|].
  rewrite Qsum_cons.
  assert (0 <= Qsum l)%Q as Hsum.
  { clear IH Hv. induction l as [|y l IHl]; [done|]. rewrite Qsum_cons.
    rewrite <-(Qplus_0_r 0). apply Qplus_le_compat.
    - apply Hpos. right. left.
    - apply IHl. intros z [->|Hz]%elem_of_cons; apply Hpos; [left|right; by right]. }
  apply elem_of_cons in Hv as [->|Hv].
  - rewrite <-(Qplus_0_r x) at 1. by apply Qplus_le_compat; [apply Qle_refl|].
  - rewrite <-(Qplus_0_l v). apply Qplus_le_compat; [apply Hpos; left|].
    apply IH; [|done]. intros z Hz. apply Hpos. by right.
Qed.

Section rank_bounds.
Variables (corpus : graph) (d : Q).
Hypothesis damping_nonneg : (0 <= d)%Q.
Hypothesis damping_at_most_one : (d <= 1)%Q.

Lemma contribution_nonneg (ranks : dict Q) page total q :
  (∀ p, 0 <= rank_of ranks p)%Q → (0 <= total)%Q →
  (0 <= contribution corpus ranks page total q)%Q.
Proof.
  intros Hranks Htotal. unfold contribution. cbv zeta.
  assert (∀ n, 0 <= total + rank_of ranks q / Qnat n)%Q as Hstep.
  { intros n. rewrite <-(Qplus_0_r 0). apply Qplus_le_compat; [done|].
    by apply Qdiv_Qnat_nonneg. }
  destruct (bool_decide _), (size _ =? 0)%nat; try done.
  rewrite <-(Qplus_0_r 0). apply Qplus_le_compat; [apply Hstep|].
  by apply Qdiv_Qnat_nonneg.
Qed.

Lemma rank_total_nonneg (ranks : dict Q) page :
  (∀ p, 0 <= rank_of ranks p)%Q → (0 <= rank_total corpus ranks page)%Q.
Proof.
  intros Hranks. unfold rank_total.
  enough (∀ l total, (0 <= total)%Q →
            (0 <= foldl (contribution corpus ranks page) total l)%Q) as H
    by apply H, Qle_refl.
  intros l. induction l as [|q l IH]; intros total Htotal; [done|].
  cbn [foldl]. apply IH. by apply contribution_nonneg.
Qed.

Lemma rank_update_floor (ranks : dict Q) page :
  (∀ p, 0 <= rank_of ranks p)%Q →
  ((1 - d) / Qnat (length corpus) <= rank_update corpus d ranks page)%Q.
Proof.
  intros Hranks. unfold rank_update.
  rewrite <-(Qplus_0_r ((1 - d) / Qnat (length corpus))) at 1.
  apply Qplus_le_compat; [apply Qle_refl|].
  apply Qmult_le_0_compat; [done|by apply rank_total_nonneg].
Qed.

Lemma floor_nonneg : (0 <= (1 - d) / Qnat (length corpus))%Q.
Proof.
  apply Qdiv_Qnat_nonneg. unfold Qminus. by rewrite <-Qle_minus_iff.
Qed.

Lemma next_ranks_nonneg (ranks : dict Q) :
  (∀ p, 0 <= rank_of ranks p)%Q →
  ∀ p, (0 <= rank_of (next_ranks corpus d ranks) p)%Q.
Proof.
  intros Hranks p. unfold rank_of at 1, next_ranks.
  rewrite dict_get_fmap_item. destruct (dict_get p ranks); [|done].
  cbn [fmap option_fmap option_map default].
  eapply Qle_trans; [apply floor_nonneg|by apply rank_update_floor].
Qed.

Lemma ranks_after_nonneg k : ∀ p, (0 <= rank_of (ranks_after corpus d k) p)%Q.
Proof.
  induction k as [|k IH].
  - intros p. unfold rank_of, ranks_after. cbn [Nat.iter nat_rect].
    change (initial_ranks corpus)
      with (fill (λ _ : string, (1 / Qnat (length corpus))%Q) [] (keys corpus)).
    rewrite dict_get_fill.
    case_decide; [|done]. cbn [default]. by apply Qdiv_Qnat_nonneg.
  - apply (next_ranks_nonneg (ranks_after corpus d k) IH).
Qed.

(** X11: for a damping factor in [0, 1], every rank that [iterate_pagerank]
    returns on a well-formed, closed corpus lies between the floor
    [(1 - d) / N] and 1. *)
Theorem iterate_pagerank_bounds (fuel : nat) (out : result (dict Q)) :
  dict_wf corpus → links_closed corpus →
  iterate_pagerank fuel corpus d = Some out →
  ∃ r, out = Ok r ∧
       ∀ p v, dict_get p r = Some v →
              ((1 - d) / Qnat (length corpus) <= v)%Q ∧ (v <= 1)%Q.
Proof.
  intros Hwf Hclosed [k ->]%iterate_pagerank_returns.
  eexists. split; [done|]. intros p v Hv. split.
  - change (ranks_after corpus d (S k))
      with (next_ranks corpus d (ranks_after corpus d k)) in Hv.
    unfold next_ranks in Hv. rewrite dict_get_fmap_item in Hv.
    destruct (dict_get p (ranks_after corpus d k)); [|done].
    injection Hv as <-. apply rank_update_floor, ranks_after_nonneg.
  - assert (corpus ≠ []) as Hne.
    { intros Hnil. assert (p ∈ keys corpus) as Hp.
      { rewrite <-(keys_ranks_after corpus d Hwf (S k)).
        apply dict_get_is_Some. by eexists. }
      rewrite Hnil in Hp. by apply elem_of_nil in Hp. }
    rewrite <-(ranks_after_mass corpus d Hwf (S k) Hclosed Hne).
    apply Qsum_upper.
    + intros x [[q x'] [-> Hq]]%list_elem_of_fmap. cbn [snd].
      pose proof (ranks_after_nonneg (S k) q) as Hge. unfold rank_of in Hge.
      by rewrite (dict_get_elem q x' _ (ranks_after_wf corpus d (S k)) Hq) in Hge.
    + apply list_elem_of_fmap. exists (p, v). split; [done|].
      by apply dict_get_Some_elem.
Qed.
End rank_bounds.

Lemma iterate_pagerank_bounds_witness :
  ∃ r, Ok (ranks_after graph_dangling DAMPING 8) = Ok r ∧
       ∀ p v, dict_get p r = Some v →
              ((1 - DAMPING) / Qnat (length graph_dangling) <= v)%Q ∧ (v <= 1)%Q.
Proof.
  apply (iterate_pagerank_bounds graph_dangling DAMPING ltac:(done) ltac:(done) 8);
    [apply graph_dangling_wf|apply graph_dangling_invariant|apply graph_dangling_returns].
Defined.

(** *** A corpus without links *)

Section no_links.
Variables (corpus : graph) (d : Q).
Hypothesis corpus_wf : dict_wf corpus.
Hypothesis corpus_nonempty : corpus ≠ [].
Hypothesis no_links : ∀ w links, (w, links) ∈ corpus → size links = 0%nat.




End no_links.


(** *** The update as a step of the transition model *)

Section markov.
Variables (corpus : graph) (d : Q).
Hypothesis corpus_wf : dict_wf corpus.
Hypothesis corpus_invariant : graph_invariant corpus.
Hypothesis no_dangling : ∀ w links, (w, links) ∈ corpus → size links ≠ 0%nat.


End markov.


(** ** More on crawl *)

Lemma append_String (a : Ascii.ascii) (s1 s2 : string) :
  String a s1 +:+ s2 = String a (s1 +:+ s2).
Proof. reflexivity. Qed.

Lemma substring_whole (s : string) : String.substring 0 (String.length s) s = s.
Proof.
  induction s as [|a s IH]; [done|]. cbn [String.length String.substring]. by rewrite IH.
Qed.

Lemma substring_append_suffix (pre suffix : string) :
  String.substring (String.length pre) (String.length suffix) (pre +:+ suffix) = suffix.
Proof.
  induction pre as [|a pre IH].
  - apply substring_whole.
  - rewrite append_String. cbn [String.length String.substring]. apply IH.
Qed.

Lemma substring_split (s : string) (k : nat) :
  (k ≤ String.length s)%nat →
  s = String.substring 0 k s +:+ String.substring k (String.length s - k) s.
Proof.
  revert k. induction s as [|a s IH]; intros k Hk.
  - cbn [String.length] in Hk. by replace k with 0%nat by lia.
  - destruct k as [|k].
    + rewrite Nat.sub_0_r, substring_whole. done.
    + cbn [String.length] in *. cbn [String.substring Nat.sub].
      rewrite append_String. f_equal. apply IH. lia.
Qed.

Lemma length_append (s1 s2 : string) :
  String.length (s1 +:+ s2) = (String.length s1 + String.length s2)%nat.
Proof.
  induction s1 as [|a s1 IH]; [done|].
  rewrite append_String. cbn [String.length]. by rewrite IH.
Qed.

(** [endswith] holds exactly of the strings that are some text followed by the
    suffix. *)
Lemma endswith_spec (s suffix : string) :
  endswith s suffix = true ↔ ∃ stem, s = stem +:+ suffix.
Proof.
  unfold endswith. cbv zeta. split.
  - intros [Hle Heq]%andb_true_iff. apply Nat.leb_le in Hle.
    apply String.eqb_eq in Heq.
    exists (String.substring 0 (String.length s - String.length suffix) s).
    pose proof (substring_split s (String.length s - String.length suffix)
                  ltac:(lia)) as Hsplit.
    replace (String.length s - (String.length s - String.length suffix))%nat
      with (String.length suffix) in Hsplit by lia.
    by rewrite Heq in Hsplit.
  - intros [stem ->]. rewrite length_append. apply andb_true_iff. split.
    + apply Nat.leb_le. lia.
    + apply String.eqb_eq.
      replace (String.length stem + String.length suffix - String.length suffix)%nat
        with (String.length stem) by lia.
      apply substring_append_suffix.
Qed.

Lemma elem_of_keys_dict_set {V : Type} (p k : string) (v : V) (d : dict V) :
  p ∈ keys (dict_set k v d) ↔ p = k ∨ p ∈ keys d.
Proof.
  destruct (decide (k ∈ keys d)) as [Hin|Hout].
  - rewrite keys_dict_set_mem by done. split; [by right|]. by intros [->|?].
  - rewrite keys_dict_set_fresh, elem_of_app, list_elem_of_singleton by done. tauto.
Qed.

Section crawl_more.
Variable findall : string → list string.

Lemma keys_foldl_read_step (directory : list (string * string)) : ∀ (pages : graph) p,
  p ∈ keys (foldl (read_step findall) pages directory)
  ↔ p ∈ keys pages ∨
    ∃ contents, (p, contents) ∈ directory ∧ endswith p ".html" = true.
Proof.
  induction directory as [|[f c] directory IH]; intros pages p; cbn [foldl].
  - split; [by left|]. intros [?|(? & []%elem_of_nil & _)]. done.
  - rewrite IH. unfold read_step.
    destruct (endswith f ".html") eqn:Hf; cbn [negb].
    + rewrite elem_of_keys_dict_set. split.
      * intros [[->|?]|(c' & ? & ?)]; [right|by left|right].
        -- exists c. split; [left|done].
        -- exists c'. split; [by right|done].
      * intros [?|(c' & [[= -> ->]|?]%elem_of_cons & ?)];
          [left; by right|left; by left|right; by exists c'].
    + split.
      * intros [?|(c' & ? & ?)]; [by left|right]. exists c'. split; [by right|done].
      * intros [?|(c' & [[= -> ->]|?]%elem_of_cons & ?)];
          [by left|congruence|right; by exists c'].
Qed.

(** X14: the pages of the graph that [crawl] returns are exactly the entries
    of the directory whose name is some text followed by ".html". *)
Theorem crawl_pages (directory : list (string * string)) (p : string) :
  ∃ pages, crawl findall directory = Ok pages ∧
    (p ∈ keys pages ↔
     ∃ contents stem, (p, contents) ∈ directory ∧ p = stem +:+ ".html").
Proof.
  eexists. split; [apply crawl_Ok|].
  rewrite keys_fmap_item, keys_foldl_read_step. cbn [keys fmap list_fmap]. split.
  - intros [[]%elem_of_nil|(c & Hin & [stem ->]%endswith_spec)]. by exists c, stem.
  - intros (c & stem & Hin & ->). right. exists c. split; [done|].
    apply endswith_spec. by exists stem.
Qed.

Lemma dict_get_foldl_read_step_other (directory : list (string * string)) :
  ∀ (pages : graph) f,
  f ∉ directory.*1 →
  dict_get f (foldl (read_step findall) pages directory) = dict_get f pages.
Proof.
  induction directory as [|[f' c'] directory IH]; intros pages f Hf; [done|].
  rewrite fmap_cons in Hf. apply not_elem_of_cons in Hf as [Hne Hf].
  cbn [foldl]. rewrite IH by done. unfold read_step.
  destruct (negb (endswith f' ".html")); [done|].
  apply dict_get_set_ne. cbn [fst] in Hne. congruence.
Qed.

Lemma dict_get_foldl_read_step (directory : list (string * string)) :
  ∀ (pages : graph) f contents,
  NoDup directory.*1 → (f, contents) ∈ directory → endswith f ".html" = true →
  dict_get f (foldl (read_step findall) pages directory)
  = Some (list_to_set (findall contents) ∖ {[f]}).
Proof.
  induction directory as [|[f' c'] directory IH]; intros pages f contents Hnd Hin Hhtml.
  - by apply elem_of_nil in Hin.
  - rewrite fmap_cons in Hnd. apply NoDup_cons in Hnd as [Hfresh Hnd].
    cbn [foldl]. apply elem_of_cons in Hin as [[= -> ->]|Hin].
    + rewrite dict_get_foldl_read_step_other by done.
      unfold read_step. rewrite Hhtml. cbn [negb]. apply dict_get_set_eq.
    + by apply IH.
Qed.

(** X15: in a directory whose entries have distinct names, the links that
    [crawl] records for a page are exactly the targets found in its text that
    are not the page itself and are pages of the returned graph. *)
Theorem crawl_links (directory : list (string * string)) (f contents : string) :
  NoDup directory.*1 → (f, contents) ∈ directory → endswith f ".html" = true →
  ∃ pages links, crawl findall directory = Ok pages ∧
    dict_get f pages = Some links ∧
    ∀ l, l ∈ links ↔ l ∈ findall contents ∧ l ≠ f ∧ l ∈ keys pages.
Proof.
  intros Hnd Hin Hhtml. eexists _, _. split; [apply crawl_Ok|]. split.
  - rewrite dict_get_fmap_item.
    rewrite (dict_get_foldl_read_step directory [] f contents) by done.
    reflexivity.
  - intros l. cbn [snd]. rewrite keys_fmap_item.
    rewrite elem_of_filter, elem_of_difference, elem_of_list_to_set.
    rewrite not_elem_of_singleton. tauto.
Qed.
End crawl_more.

Lemma crawl_pages_witness :
  ∃ pages, crawl (λ contents, [contents; "2.html"])
             [("1.html", "2.html"); ("notes.txt", "1.html"); ("2.html", "3.html")]
           = Ok pages ∧
    ("1.html" ∈ keys pages ↔
     ∃ contents stem,
       ("1.html", contents)
         ∈ [("1.html", "2.html"); ("notes.txt", "1.html"); ("2.html", "3.html")] ∧
       "1.html" = stem +:+ ".html").
Proof. apply crawl_pages. Defined.

Lemma crawl_links_witness :
  ∃ pages links,
    crawl (λ contents, [contents; "2.html"])
      [("1.html", "2.html"); ("notes.txt", "1.html"); ("2.html", "3.html")]
    = Ok pages ∧
    dict_get "1.html" pages = Some links ∧
    ∀ l, l ∈ links ↔ l ∈ ["2.html"; "2.html"] ∧ l ≠ "1.html" ∧ l ∈ keys pages.
Proof.
  apply (crawl_links (λ contents, [contents; "2.html"]) _ "1.html" "2.html").
  - simpl. repeat constructor; set_solver.
  - left.
  - reflexivity.
Defined.

(** ** main: what a run prints *)

#[global] Instance string_le_total : Total string_le.
Proof. intros a b. apply String.leb_total. Qed.

Lemma sorted_Sorted (l : list string) : Sorted string_le (sorted l).
Proof. apply Sorted_merge_sort. apply _. Qed.

Lemma sorted_Permutation (l : list string) : sorted l ≡ₚ l.
Proof. apply merge_sort_Permutation. Qed.

Section main_lemmas.
Context {rng : Type}.
Variable random_choice : list string → rng → result (string * rng).
Variable random_choices : list string → list Q → rng → result (string * rng).
Variable findall : string → list string.
Variable listdir : string → list (string * string).
Variable format_4f : Q → string.

Lemma print_ranks_present (ranks : dict Q) (pages : list string) : ∀ stdout,
  pages ⊆ keys ranks →
  print_ranks format_4f ranks pages stdout
  = (None, stdout ++ ((λ p, report_line format_4f p (rank_of ranks p)) <$> pages)).
Proof.
  induction pages as [|p pages IH]; intros stdout Hsub; cbn [print_ranks].
  - by rewrite app_nil_r.
  - destruct (proj2 (dict_get_is_Some p ranks)) as [v Hv]; [apply Hsub; left|].
    unfold dict_getitem. rewrite Hv. rewrite IH by (intros q Hq; apply Hsub; by right).
    rewrite fmap_cons, <-app_assoc. unfold rank_of. by rewrite Hv.
Qed.

Lemma print_ranks_sorted (ranks : dict Q) stdout :
  print_ranks format_4f ranks (sorted (keys ranks)) stdout
  = (None, stdout ++ ((λ p, report_line format_4f p (rank_of ranks p))
                        <$> sorted (keys ranks))).
Proof.
  apply print_ranks_present. intros p Hp. by rewrite sorted_Permutation in Hp.
Qed.

Lemma foldl_read_step_no_html (directory : list (string * string)) (pages : graph) :
  (∀ f c, (f, c) ∈ directory → endswith f ".html" = false) →
  foldl (read_step findall) pages directory = pages.
Proof.
  revert pages. induction directory as [|[f c] directory IH]; intros pages Hno; [done|].
  cbn [foldl]. unfold read_step at 2. rewrite (Hno f c) by left. cbn [negb].
  apply IH. intros f' c' Hin. apply (Hno f' c'). by right.
Qed.

(** X16: when the directory holds no entry whose name ends in ".html", the
    corpus is empty and a run of [main] with one argument ends with the
    [IndexError] of [random.choice], before anything is printed. *)
Theorem main_empty_corpus (fuel : nat) (program directory : string) (g : rng) :
  (∀ f c, (f, c) ∈ listdir directory → endswith f ".html" = false) →
  random_choice [] g = Raise IndexError →
  main random_choice random_choices findall listdir format_4f fuel
    [program; directory] g
  = Some (Uncaught IndexError []).
Proof.
  intros Hno Hempty. unfold main. cbn [length Nat.eqb negb lookup list_lookup default].
  rewrite crawl_Ok. cbv zeta. rewrite foldl_read_step_no_html by done.
  cbn [fmap list_fmap]. by rewrite sample_pagerank_empty.
Qed.


(** X18: a run of [main] that returns has printed the sampling header, one
    line for each page that the sampler visited, the iteration header, and one
    line for each page of the corpus; within each block the pages come in
    ascending order, each once. *)
Theorem main_report (fuel : nat) (argv : list string) (g : rng) (stdout : list string) :
  main random_choice random_choices findall listdir format_4f fuel argv g
  = Some (Returned stdout) →
  ∃ corpus sampled g' iterated,
    crawl findall (listdir (default "" (argv !! 1%nat))) = Ok corpus ∧
    sample_pagerank random_choice random_choices corpus DAMPING SAMPLES g
      = Ok (sampled, g') ∧
    iterate_pagerank fuel corpus DAMPING = Some (Ok iterated) ∧
    stdout
    = ["PageRank Results from Sampling (n = 10000)"]
      ++ ((λ p, report_line format_4f p (rank_of sampled p)) <$> sorted (keys sampled))
      ++ ["PageRank Results from Iteration"]
      ++ ((λ p, report_line format_4f p (rank_of iterated p)) <$> sorted (keys iterated)) ∧
    Sorted string_le (sorted (keys sampled)) ∧ sorted (keys sampled) ≡ₚ keys sampled ∧
    Sorted string_le (sorted (keys iterated)) ∧ sorted (keys iterated) ≡ₚ keys corpus.
Proof.
  unfold main. destruct (negb _); [done|].
  destruct (crawl_wf findall (listdir (default "" (argv !! 1%nat))))
    as (corpus & -> & Hwf).
  destruct (sample_pagerank _ _ corpus DAMPING SAMPLES g) as [[sampled g']|e'] eqn:Hsample;
    [|done].
  rewrite print_ranks_sorted.
  destruct (iterate_pagerank fuel corpus DAMPING) as [out|] eqn:Hiter; [|done].
  destruct (iterate_pagerank_returns _ _ _ _ Hiter) as [k ->].
  pose proof (keys_ranks_after corpus DAMPING Hwf (S k)) as Hkeys.
  rewrite print_ranks_sorted. intros [= <-].
  exists corpus, sampled, g', (ranks_after corpus DAMPING (S k)).
  repeat split; try done.
  - by rewrite <-!app_assoc.
  - apply sorted_Sorted.
  - apply sorted_Permutation.
  - apply sorted_Sorted.
  - rewrite <-Hkeys. apply sorted_Permutation.
Qed.
End main_lemmas.

Lemma main_empty_corpus_witness :
  main cyclic_choice cyclic_choices (λ contents, [contents]) example_listdir
    (λ _, "0.5000") 0 ["pagerank.py"; "nowhere"] 0%nat
  = Some (Uncaught IndexError []).
Proof.
  apply main_empty_corpus.
  - by intros f c ?%elem_of_nil.
  - apply cyclic_choice_empty.
Defined.

Section main_total.
Context {rng : Type}.
Variable random_choice : list string → rng → result (string * rng).
Variable random_choices : list string → list Q → rng → result (string * rng).
Variable findall : string → list string.
Variable listdir : string → list (string * string).
Variable format_4f : Q → string.

Hypothesis random_choice_total : ∀ seq g,
  seq ≠ [] → ∃ x g', random_choice seq g = Ok (x, g') ∧ x ∈ seq.

Hypothesis random_choices_total : ∀ population weights g,
  population ≠ [] → length weights = length population →
  (∀ v, v ∈ weights → (0 < v)%Q) →
  ∃ x g', random_choices population weights g = Ok (x, g') ∧ x ∈ population.

Lemma main_returns_normally (fuel : nat) (program directory : string) (g : rng) :
  (∃ f c, (f, c) ∈ listdir directory ∧ endswith f ".html" = true) →
  (∀ corpus, crawl findall (listdir directory) = Ok corpus →
             is_Some (iterate_pagerank fuel corpus DAMPING)) →
  ∃ stdout,
    main random_choice random_choices findall listdir format_4f fuel
      [program; directory] g
    = Some (Returned stdout).
Proof.
  intros (f & c & Hin & Hhtml) Hiter. unfold main.
  cbn [length Nat.eqb negb].
  change (default "" ([program; directory] !! 1%nat)) with directory.
  destruct (crawl_wf findall (listdir directory)) as (corpus & Hcrawl & Hwf).
  destruct (Hiter corpus Hcrawl) as [out Hout].
  assert (corpus ≠ []) as Hne.
  { pose proof Hcrawl as Heq. rewrite crawl_Ok in Heq. injection Heq as Heq.
    intros Hnil.
    assert (f ∈ keys corpus) as Hf.
    { rewrite <-Heq, keys_fmap_item. apply keys_foldl_read_step. right. by exists c. }
    rewrite Hnil in Hf. by apply elem_of_nil in Hf. }
  rewrite Hcrawl.
  destruct (sample_pagerank_returns random_choice random_choices
              random_choice_total random_choices_total corpus DAMPING Hwf
              ltac:(done) ltac:(done) SAMPLES g Hne) as (sampled & g' & ->).
  rewrite print_ranks_sorted, Hout.
  destruct (iterate_pagerank_returns _ _ _ _ Hout) as [k ->].
  rewrite print_ranks_sorted. by eexists.
Qed.

End main_total.

Lemma example_run_html :
  ∃ f c, (f, c) ∈ example_listdir "corpus" ∧ endswith f ".html" = true.
Proof. exists "1.html", "2.html". split; [left|reflexivity]. Qed.

Lemma example_run_iterates (corpus : graph) :
  crawl (λ contents, [contents]) (example_listdir "corpus") = Ok corpus →
  is_Some (iterate_pagerank 5 corpus DAMPING).
Proof.
  intros Hcrawl. vm_compute in Hcrawl. injection Hcrawl as <-.
  vm_compute. by eexists.
Qed.

Lemma main_report_witness :
  ∃ stdout,
    main cyclic_choice cyclic_choices (λ contents, [contents]) example_listdir
      (λ _, "0.5000") 5 ["pagerank.py"; "corpus"] 0%nat
    = Some (Returned stdout) ∧
    ∃ corpus sampled g' iterated,
      crawl (λ contents, [contents])
        (example_listdir (default "" (["pagerank.py"; "corpus"] !! 1%nat))) = Ok corpus ∧
      sample_pagerank cyclic_choice cyclic_choices corpus DAMPING SAMPLES 0%nat
        = Ok (sampled, g') ∧
      iterate_pagerank 5 corpus DAMPING = Some (Ok iterated) ∧
      stdout
      = ["PageRank Results from Sampling (n = 10000)"]
        ++ ((λ p, report_line (λ _, "0.5000") p (rank_of sampled p))
              <$> sorted (keys sampled))
        ++ ["PageRank Results from Iteration"]
        ++ ((λ p, report_line (λ _, "0.5000") p (rank_of iterated p))
              <$> sorted (keys iterated)) ∧
      Sorted string_le (sorted (keys sampled)) ∧ sorted (keys sampled) ≡ₚ keys sampled ∧
      Sorted string_le (sorted (keys iterated)) ∧ sorted (keys iterated) ≡ₚ keys corpus.
Proof.
  destruct (main_returns_normally cyclic_choice cyclic_choices (λ contents, [contents])
              example_listdir (λ _, "0.5000") cyclic_choice_total cyclic_choices_total
              5 "pagerank.py" "corpus" 0%nat example_run_html example_run_iterates)
    as [stdout Hrun].
  exists stdout. split; [exact Hrun|].
  exact (main_report _ _ _ _ _ _ _ _ _ Hrun).
Defined.

(** ** main: runs whose reads may fail *)

Section main_run_lemmas.
Context {rng : Type}.
Variable random_choice : list string → rng → result (string * rng).
Variable random_choices : list string → list Q → rng → result (string * rng).
Variable findall : string → list string.
Variable read_directory : string → option (list (string * string)).
Variable format_4f : Q → string.


Hypothesis random_choice_total : ∀ seq g,
  seq ≠ [] → ∃ x g', random_choice seq g = Ok (x, g') ∧ x ∈ seq.

Hypothesis random_choices_total : ∀ population weights g,
  population ≠ [] → length weights = length population →
  (∀ v, v ∈ weights → (0 < v)%Q) →
  ∃ x g', random_choices population weights g = Ok (x, g') ∧ x ∈ population.

End main_run_lemmas.


